(** * Split dispatcher and dataset export orchestrator of dataset-helpers

    Shallow embedding of [src/src/split.ts] ([dispatchGroup],
    [genDispatchGroupSequence]), of [src/unnamed/part_003] (the
    [GroupType] enumeration) and of the control flow of
    [exportDatasetHelper] in [src/src/export.ts], together with the way
    [exportCocoDataset] builds its [dispatchGroupToCall] argument; then
    [validatePaths], and the [generateSampleSequence], [saveSample] and
    [createDirsAndMetadata] that [exportCocoDataset] hands to the helper,
    with [cachedMkdir] of [src/src/fs.ts]. *)

From Stdlib Require Import ZArith QArith Qabs PrimFloat Uint63 List Lia.
From stdpp Require Import base gmap strings list pretty.
Import ListNotations.

(* ------------------------------------------------------------------ *)
(** ** Data model *)

(** [type GroupType = "train" | "val" | "test"] *)
Inductive GroupType := Train | Val | Test.

Definition GroupType_eqb (a b : GroupType) : bool :=
  match a, b with
  | Train, Train | Val, Val | Test, Test => true
  | _, _ => false
  end.

#[global] Instance GroupType_eq_dec : EqDecision GroupType.
Proof. solve_decision. Defined.

(** [Record<GroupType, number>]: a counts table or a target ratio.  The
    numbers the code stores there are integers; they are modelled as [Z]. *)
Record SplitTable := mkTable { train : Z; val : Z; test : Z }.

Definition get (r : SplitTable) (g : GroupType) : Z :=
  match g with Train => train r | Val => val r | Test => test r end.

(** [r[g]++] (and [simulated[g] += 1]) *)
Definition incr (r : SplitTable) (g : GroupType) : SplitTable :=
  match g with
  | Train => mkTable (train r + 1) (val r) (test r)
  | Val => mkTable (train r) (val r + 1) (test r)
  | Test => mkTable (train r) (val r) (test r + 1)
  end.

(** [{ train: 0, val: 0, test: 0 }] *)
Definition zero_table : SplitTable := mkTable 0 0 0.

(** Errors thrown by the code ([throw new Error(...)] in [dispatchGroup]),
    and errors raised by the caller-supplied sinks of the orchestrator. *)
Inductive Error :=
  | InvalidTarget (g : GroupType) (v : Z)
      (* `Invalid input: target['${g}'] = ${target[g]}; ...` *)
  | SinkError (code : nat).

Inductive Result (A : Type) := Ok (a : A) | Throw (e : Error).
Arguments Ok {A} a.
Arguments Throw {A} e.

(* ------------------------------------------------------------------ *)
(** ** Numbers

    [dispatchGroup] computes its error terms with JavaScript numbers.  The
    dispatcher is written once over the arithmetic it uses and is then
    instantiated with IEEE-754 binary64 ([PrimFloat.float], what the code
    runs on) and with exact rationals ([Q], the mathematical reading). *)
Class NumOps (R : Type) := {
  n_of_Z : Z -> R;
  n_zero : R;
  n_add : R -> R -> R;
  n_sub : R -> R -> R;
  n_mul : R -> R -> R;
  n_div : R -> R -> R;
  n_ltb : R -> R -> bool;
  (** [x < Infinity] *)
  n_lt_inf : R -> bool
}.

(** Integer-valued JS number as a double (exact for |z| < 2^53). *)
Definition float_of_Z (z : Z) : float :=
  if (z <? 0)%Z then PrimFloat.opp (PrimFloat.of_uint63 (Uint63.of_Z (- z)))
  else PrimFloat.of_uint63 (Uint63.of_Z z).

#[global] Instance float_ops : NumOps float := {
  n_of_Z := float_of_Z;
  n_zero := float_of_Z 0;
  n_add := PrimFloat.add;
  n_sub := PrimFloat.sub;
  n_mul := PrimFloat.mul;
  n_div := PrimFloat.div;
  n_ltb := PrimFloat.ltb;
  n_lt_inf := fun x => PrimFloat.ltb x PrimFloat.infinity
}.

#[global] Instance Q_ops : NumOps Q := {
  n_of_Z := inject_Z;
  n_zero := 0%Q;
  n_add := Qplus;
  n_sub := Qminus;
  n_mul := Qmult;
  n_div := Qdiv;
  n_ltb := fun a b => negb (Qle_bool b a);
  n_lt_inf := fun _ => true
}.

(* ------------------------------------------------------------------ *)
(** ** [dispatchGroup] (src/src/split.ts, lines 4-53) *)

Section Dispatch.
Context {R : Type} `{NumOps R}.

(** [const group_types = target["val"] === 0 ? ["train","test"] : ["train","test","val"]] *)
Definition active_groups (target : SplitTable) : list GroupType :=
  if Z.eqb (val target) 0 then [Train; Test] else [Train; Test; Val].

(** [for (const g of group_types) if (target[g] <= 0) throw ...] *)
Fixpoint validate (target : SplitTable) (gs : list GroupType) : option Error :=
  match gs with
  | [] => None
  | g :: rest =>
      if Z.leb (get target g) 0 then Some (InvalidTarget g (get target g))
      else validate target rest
  end.

(** [group_types.reduce((sum, g) => sum + t[g], 0)] *)
Definition reduce_sum (t : SplitTable) (gs : list GroupType) : R :=
  fold_left (fun sum g => n_add sum (n_of_Z (get t g))) gs n_zero.

(** The inner loop: [error] for the candidate [group_type]. *)
Definition group_error (gs : list GroupType) (current target : SplitTable)
    (total_current total_target : R) (group_type : GroupType) : R :=
  let simulated := incr current group_type in
  let new_total := n_add total_current (n_of_Z 1) in
  fold_left (fun error grp_type =>
      let actual_ratio := n_div (n_of_Z (get simulated grp_type)) new_total in
      let target_ratio := n_div (n_of_Z (get target grp_type)) total_target in
      let diff := n_sub actual_ratio target_ratio in
      n_add error (n_mul diff diff))
    gs n_zero.

(** [error < best_error], with [None] standing for [Infinity]. *)
Definition better (error : R) (best_error : option R) : bool :=
  match best_error with
  | None => n_lt_inf error
  | Some b => n_ltb error b
  end.

(** The outer [for (const group_type of group_types)] loop, whose
    remaining iterations are [todo]. *)
Fixpoint dispatch_loop (gs : list GroupType) (current target : SplitTable)
    (total_current total_target : R) (todo : list GroupType)
    (best_group : GroupType) (best_error : option R) : GroupType :=
  match todo with
  | [] => best_group
  | group_type :: rest =>
      if Z.eqb (get current group_type) 0 then group_type (* break *)
      else
        let error := group_error gs current target total_current total_target group_type in
        if better error best_error
        then dispatch_loop gs current target total_current total_target rest group_type (Some error)
        else dispatch_loop gs current target total_current total_target rest best_group best_error
  end.

Definition dispatchGroupR (current target : SplitTable) : Result GroupType :=
  let group_types := active_groups target in
  match validate target group_types with
  | Some e => Throw e
  | None =>
      let total_target := reduce_sum target group_types in
      let total_current := reduce_sum current group_types in
      Ok (dispatch_loop group_types current target total_current total_target
            group_types Train (* group_types[0] *) None)
  end.

End Dispatch.

(** The code: JavaScript numbers are doubles. *)
Definition dispatchGroup (current target : SplitTable) : Result GroupType :=
  @dispatchGroupR float float_ops current target.

(** The same code read in exact rational arithmetic. *)
Definition dispatchGroupQ (current target : SplitTable) : Result GroupType :=
  @dispatchGroupR Q Q_ops current target.

Example dispatch_test_ts : dispatchGroup (mkTable 13 2 4) (mkTable 7 1 2) = Ok Train.
Proof. vm_compute. reflexivity. Qed.

Example dispatch_float_tie : dispatchGroup (mkTable 1 1 2) (mkTable 1 1 1) = Ok Val.
Proof. vm_compute. reflexivity. Qed.

Example dispatch_Q_tie : dispatchGroupQ (mkTable 1 1 2) (mkTable 1 1 1) = Ok Train.
Proof. vm_compute. reflexivity. Qed.

(* ------------------------------------------------------------------ *)
(** ** [genDispatchGroupSequence] (src/src/split.ts, lines 55-71)

    The generator is single-pass; pulling it to the end yields the list
    below.  When [dispatchGroup] throws on a pull, the generator throws
    after the values already yielded: the second component is that error.
    [total] is a non-negative integer, modelled as [nat]. *)
Fixpoint gen_loop (target current : SplitTable) (remaining : nat)
    : list GroupType * option Error :=
  match remaining with
  | O => ([], None)
  | S n =>
      match dispatchGroup current target with
      | Throw e => ([], Some e)
      | Ok group_type =>
          let '(ys, err) := gen_loop target (incr current group_type) n in
          (group_type :: ys, err)
      end
  end.

Definition genDispatchGroupSequence (target : SplitTable) (total : nat)
    : list GroupType * option Error :=
  gen_loop target zero_table total.

(** The sequence as the spec describes it: start from all-zero counts and,
    [total] times, call the dispatcher and then increment the chosen
    split's count.  Returns the decisions and the final counts. *)
Fixpoint drive_dispatcher (target : SplitTable) (total : nat)
    : Result (list GroupType * SplitTable) :=
  match total with
  | O => Ok ([], zero_table)
  | S n =>
      match drive_dispatcher target n with
      | Throw e => Throw e
      | Ok (decisions, counts) =>
          match dispatchGroup counts target with
          | Throw e => Throw e
          | Ok g => Ok (decisions ++ [g], incr counts g)
          end
      end
  end.

(** Number of occurrences of a split in a yielded sequence. *)
Definition count_of (g : GroupType) (seq : list GroupType) : Z :=
  Z.of_nat (length (filter (fun x => GroupType_eqb x g) seq)).

Example gen_first : fst (genDispatchGroupSequence (mkTable 7 1 2) 20) =
  [Train; Test; Val; Train; Train; Train; Train; Test; Train; Train;
   Train; Test; Train; Train; Val; Train; Train; Test; Train; Train].
Proof. vm_compute. reflexivity. Qed.

(* ------------------------------------------------------------------ *)
(** ** [exportDatasetHelper] (src/src/export.ts, lines 34-93) *)

(** [GroupType | ""]: the group tag a sample carries; [""] is the
    ungrouped tag.  Pass-through mode casts it to [GroupType] without a
    check, so at run time [""] reaches [saveSample] and [groupTypes]. *)
Inductive Group := Grp (g : GroupType) | Ungrouped.

Definition Group_eqb (a b : Group) : bool :=
  match a, b with
  | Grp x, Grp y => GroupType_eqb x y
  | Ungrouped, Ungrouped => true
  | _, _ => false
  end.

Section Orchestrator.
(** The annotation payload is opaque to the orchestrator. *)
Context {Annotation : Type}.

Record Sample := mkSample {
  imageId : Z;
  filename : string;
  categoryName : string;
  groupType : Group;
  annotation : Annotation
}.

(** Calls observable by the caller: the two caller-supplied sinks. *)
Inductive Event :=
  | SaveCall (sample : Sample) (g : Group)
  | FinalizeCall (groupTypes : list Group).

(** [options]: [generateSampleSequence()] as the finite list it yields;
    [saveSample] receives, besides its [{sample, groupType}] argument, the
    number of calls that preceded it (a sink may reject, say, its 3rd
    call); a sink rejecting its promise returns [Some error]. *)
Record HelperOptions := {
  generateSampleSequence : list Sample;
  dispatchGroupToCall : option (Sample -> SplitTable -> Result GroupType);
  saveSample : nat -> Sample -> Group -> option Error;
  createDirsAndMetadata : option (list Group -> option Error)
}.

(** Mutable state of one run: [currentRatioByClass], [groupTypes], and the
    calls made to the sinks so far. *)
Record St := mkSt {
  currentRatioByClass : gmap string SplitTable;
  groupTypes : list Group;
  calls : list Event
}.

Definition initial_state : St := mkSt ∅ [] [].

(** A state and error monad: a thrown error keeps the state reached. *)
Inductive Outcome (A : Type) := Done (a : A) (st : St) | Failed (e : Error) (st : St).
Arguments Done {A} a st.
Arguments Failed {A} e st.

Definition M (A : Type) : Type := St -> Outcome A.

Definition ret {A} (a : A) : M A := fun st => Done a st.

Definition bind {A B} (m : M A) (k : A -> M B) : M B :=
  fun st => match m st with
            | Done a st' => k a st'
            | Failed e st' => Failed e st'
            end.

Local Notation "x <- m ;; k" := (bind m (fun x => k))
  (at level 100, m at next level, right associativity).
Local Notation "m ;;; k" := (bind m (fun _ => k))
  (at level 100, right associativity).

Definition set_counts (m : gmap string SplitTable) (st : St) : St :=
  mkSt m (groupTypes st) (calls st).

Definition is_save_call (ev : Event) : bool :=
  match ev with SaveCall _ _ => true | FinalizeCall _ => false end.

(** [if (dispatchGroup) { currentRatioByClass[class_name] ??= {...};
    groupType = dispatchGroup({sample, current}); current[groupType]++; }
    else groupType = sample.groupType as GroupType] *)
Definition choose_group (o : HelperOptions) (sample : Sample) : M Group :=
  fun st =>
  match dispatchGroupToCall o with
  | Some dispatch =>
      let class_name := categoryName sample in
      let current := default zero_table (currentRatioByClass st !! class_name) in
      let st1 := set_counts (<[class_name := current]> (currentRatioByClass st)) st in
      match dispatch sample current with
      | Throw e => Failed e st1
      | Ok g => Done (Grp g)
          (set_counts (<[class_name := incr current g]> (currentRatioByClass st1)) st1)
      end
  | None => Done (groupType sample) st
  end.

(** [if (!groupTypes.includes(groupType)) groupTypes.push(groupType)] *)
Definition record_group (g : Group) : M unit :=
  fun st =>
  if existsb (Group_eqb g) (groupTypes st) then Done tt st
  else Done tt (mkSt (currentRatioByClass st) (groupTypes st ++ [g]) (calls st)).

(** [await saveSample({ sample, groupType })] *)
Definition call_save (o : HelperOptions) (sample : Sample) (g : Group) : M unit :=
  fun st =>
  let k := length (filter is_save_call (calls st)) in
  let st' := mkSt (currentRatioByClass st) (groupTypes st) (calls st ++ [SaveCall sample g]) in
  match saveSample o k sample g with
  | None => Done tt st'
  | Some e => Failed e st'
  end.

(** [for (const sample of sampleIterator) { ... }] *)
Fixpoint helper_loop (o : HelperOptions) (samples : list Sample) : M unit :=
  match samples with
  | [] => ret tt
  | sample :: rest =>
      g <- choose_group o sample ;;
      record_group g ;;;
      call_save o sample g ;;;
      helper_loop o rest
  end.

(** [if (createDirsAndMetadata) await createDirsAndMetadata(groupTypes)] *)
Definition finalize (o : HelperOptions) : M unit :=
  fun st =>
  match createDirsAndMetadata o with
  | None => Done tt st
  | Some f =>
      let st' := mkSt (currentRatioByClass st) (groupTypes st)
                      (calls st ++ [FinalizeCall (groupTypes st)]) in
      match f (groupTypes st) with
      | None => Done tt st'
      | Some e => Failed e st'
      end
  end.

Definition exportDatasetHelper (o : HelperOptions) : M unit :=
  helper_loop o (generateSampleSequence o) ;;; finalize o.

Definition run (o : HelperOptions) : Outcome unit :=
  exportDatasetHelper o initial_state.

Definition outcome_state {A} (r : Outcome A) : St :=
  match r with Done _ st => st | Failed _ st => st end.

(** [exportCocoDataset] (src/src/export.ts, lines 646-659): the
    [dispatchGroupToCall] it passes to the helper. *)
Definition coco_dispatchGroupToCall
    (customDispatchGroup : option (Sample -> GroupType))
    (groupRatio : option SplitTable)
    : option (Sample -> SplitTable -> Result GroupType) :=
  match customDispatchGroup with
  | Some custom => Some (fun sample _ => Ok (custom sample))
  | None =>
      match groupRatio with
      | Some r => Some (fun _ current => dispatchGroup current r)
      | None => None
      end
  end.

End Orchestrator.

Arguments Sample : clear implicits.
Arguments Event : clear implicits.
Arguments HelperOptions : clear implicits.
Arguments St : clear implicits.
Arguments Outcome : clear implicits.
Arguments Done {Annotation A} a st.
Arguments Failed {Annotation A} e st.
Arguments mkSample {Annotation} imageId filename categoryName groupType annotation.
Arguments SaveCall {Annotation} sample g.
Arguments FinalizeCall {Annotation} groupTypes.
Arguments mkSt {Annotation} currentRatioByClass groupTypes calls.
Arguments Build_HelperOptions {Annotation}
  generateSampleSequence dispatchGroupToCall saveSample createDirsAndMetadata.

(* ================================================================== *)
(** * Properties *)

(** ** Facts about the dispatcher, for any arithmetic *)

Section DispatchFacts.
Context {R : Type} `{NumOps R}.

Lemma dispatch_loop_first_zero gs current target tc tt todo b e g :
  find (fun x => Z.eqb (get current x) 0) todo = Some g ->
  dispatch_loop gs current target tc tt todo b e = g.
Proof.
  revert b e. induction todo as [|x rest IH]; intros b e Hf; simpl in *.
  - discriminate.
  - destruct (Z.eqb (get current x) 0); [congruence|].
    destruct (better _ e); apply IH; exact Hf.
Qed.

Lemma dispatch_loop_in gs current target tc tt todo b e :
  In (dispatch_loop gs current target tc tt todo b e) (b :: todo).
Proof.
  revert b e. induction todo as [|x rest IH]; intros b e; simpl.
  - left; reflexivity.
  - destruct (Z.eqb (get current x) 0); [right; left; reflexivity|].
    destruct (better _ e).
    + right. exact (IH x _).
    + destruct (IH b e) as [Hb|Hr]; [left; exact Hb|right; right; exact Hr].
Qed.

Lemma validate_none t gs :
  validate t gs = None <-> (forall g, In g gs -> (0 < get t g)%Z).
Proof.
  induction gs as [|x rest IH]; simpl.
  - split; [intros _ g []|reflexivity].
  - destruct (Z.leb_spec (get t x) 0) as [Hle|Hlt].
    + split; [discriminate|]. intros Hall. specialize (Hall x (or_introl eq_refl)). lia.
    + rewrite IH. split.
      * intros Hr g [<-|Hg]; [exact Hlt|exact (Hr g Hg)].
      * intros Hall g Hg. exact (Hall g (or_intror Hg)).
Qed.

Lemma validate_some t gs e :
  validate t gs = Some e ->
  exists g, In g gs /\ (get t g <= 0)%Z /\ e = InvalidTarget g (get t g).
Proof.
  induction gs as [|x rest IH]; simpl; [discriminate|].
  destruct (Z.leb_spec (get t x) 0) as [Hle|Hlt].
  - intros [= <-]. exists x. auto.
  - intros Hv. destruct (IH Hv) as (g & Hg & Hle & ->). exists g. auto.
Qed.

(** The active set of a target with positive train and test weights and
    a non-negative val weight passes validation. *)
Lemma validate_active_ok t :
  (0 < train t)%Z -> (0 < test t)%Z -> (0 <= val t)%Z ->
  validate t (active_groups t) = None.
Proof.
  intros Htr Hte Hv. unfold active_groups.
  destruct (Z.eqb_spec (val t) 0); simpl.
  - destruct (Z.leb_spec (train t) 0); [lia|].
    destruct (Z.leb_spec (test t) 0); [lia|]. reflexivity.
  - destruct (Z.leb_spec (train t) 0); [lia|].
    destruct (Z.leb_spec (test t) 0); [lia|].
    destruct (Z.leb_spec (val t) 0); [lia|]. reflexivity.
Qed.

Lemma dispatchGroupR_first_zero current target g :
  validate target (active_groups target) = None ->
  find (fun x => Z.eqb (get current x) 0) (active_groups target) = Some g ->
  dispatchGroupR current target = Ok g.
Proof.
  intros Hv Hf. unfold dispatchGroupR. rewrite Hv.
  f_equal. apply dispatch_loop_first_zero. exact Hf.
Qed.

End DispatchFacts.

(** ** Cold start, two-way split and validation *)

(** C2: for a valid target (positive train and test weights, non-negative
    val weight), whenever an active split has count 0 [dispatchGroup]
    returns the first such split in the order train, test, val; driving
    the dispatcher from all-zero counts, the first N calls return exactly
    the active splits in that order, N being their number. *)
Theorem dispatchGroup_cold_start (target : SplitTable) :
  (0 < train target)%Z -> (0 < test target)%Z -> (0 <= val target)%Z ->
  (forall current g,
     find (fun x => Z.eqb (get current x) 0) (active_groups target) = Some g ->
     dispatchGroup current target = Ok g) /\
  (exists counts,
     drive_dispatcher target (length (active_groups target))
     = Ok (active_groups target, counts)).
Proof.
  intros Htr Hte Hv.
  pose proof (validate_active_ok target Htr Hte Hv) as Hval.
  assert (Hz : forall current g,
     find (fun x => Z.eqb (get current x) 0) (active_groups target) = Some g ->
     dispatchGroup current target = Ok g).
  { intros current g Hf. apply dispatchGroupR_first_zero; assumption. }
  split; [exact Hz|].
  unfold active_groups in *.
  destruct (Z.eqb_spec (val target) 0) as [E|E]; cbn [length drive_dispatcher].
  - rewrite (Hz zero_table Train eq_refl). cbn [app].
    rewrite (Hz (incr zero_table Train) Test eq_refl). cbn [app].
    eexists; reflexivity.
  - rewrite (Hz zero_table Train eq_refl). cbn [app].
    rewrite (Hz (incr zero_table Train) Test eq_refl). cbn [app].
    rewrite (Hz (incr (incr zero_table Train) Test) Val eq_refl). cbn [app].
    eexists; reflexivity.
Qed.

Lemma dispatchGroup_cold_start_witness :
  ((0 < train (mkTable 7 1 2))%Z /\ (0 < test (mkTable 7 1 2))%Z /\
   (0 <= val (mkTable 7 1 2))%Z) /\
  dispatchGroup (mkTable 3 1 0) (mkTable 7 1 2) = Ok Test.
Proof.
  split; [simpl; lia|].
  apply (proj1 (dispatchGroup_cold_start (mkTable 7 1 2) ltac:(simpl; lia)
           ltac:(simpl; lia) ltac:(simpl; lia))).
  reflexivity.
Defined.

(** C4: with [target.val = 0] and positive train and test weights,
    [dispatchGroup] never returns val, whatever the current counts. *)
Theorem dispatchGroup_two_way_never_val (target current : SplitTable) :
  val target = 0%Z -> (0 < train target)%Z -> (0 < test target)%Z ->
  exists g, dispatchGroup current target = Ok g /\ g <> Val.
Proof.
  intros Hv Htr Hte.
  assert (Hval : validate target (active_groups target) = None)
    by (apply validate_active_ok; lia).
  unfold dispatchGroup, dispatchGroupR. rewrite Hval.
  pose proof (dispatch_loop_in (R := float) (active_groups target) current target
     (reduce_sum current (active_groups target))
     (reduce_sum target (active_groups target))
     (active_groups target) Train None) as Hin.
  remember (dispatch_loop (R := float) (active_groups target) current target
     (reduce_sum current (active_groups target))
     (reduce_sum target (active_groups target))
     (active_groups target) Train None) as g eqn:Eg.
  exists g. split; [reflexivity|].
  unfold active_groups in Hin. rewrite Hv in Hin. simpl in Hin.
  intros ->. intuition discriminate.
Qed.

Lemma dispatchGroup_two_way_never_val_witness :
  exists g, dispatchGroup (mkTable 5 0 2) (mkTable 3 0 1) = Ok g /\ g <> Val.
Proof.
  apply (dispatchGroup_two_way_never_val (mkTable 3 0 1) (mkTable 5 0 2));
    simpl; reflexivity || lia.
Defined.

(** C5: [dispatchGroup] throws exactly when some split of the active set
    has a target weight [<= 0]; the error names the first such split and
    its value; whether and what it throws does not depend on the current
    counts (so target [{train:0, test:1, val:1}] always throws). *)
Theorem dispatchGroup_config_error (target : SplitTable) :
  (forall current,
     (exists e, dispatchGroup current target = Throw e) <->
     (exists g, In g (active_groups target) /\ (get target g <= 0)%Z)) /\
  (forall current e,
     dispatchGroup current target = Throw e ->
     exists g, In g (active_groups target) /\ (get target g <= 0)%Z /\
               e = InvalidTarget g (get target g)) /\
  (forall current1 current2 e,
     dispatchGroup current1 target = Throw e -> dispatchGroup current2 target = Throw e) /\
  (forall current,
     dispatchGroup current (mkTable 0 1 1) = Throw (InvalidTarget Train 0)).
Proof.
  unfold dispatchGroup, dispatchGroupR.
  split; [|split; [|split]].
  - intros current. split.
    + intros [e He]. destruct (validate target (active_groups target)) as [e'|] eqn:Hv;
        [|discriminate].
      destruct (validate_some _ _ _ Hv) as (g & Hg & Hle & _). eauto.
    + intros (g & Hg & Hle).
      destruct (validate target (active_groups target)) as [e'|] eqn:Hv; [eauto|].
      apply validate_none with (g := g) in Hv; [lia|exact Hg].
  - intros current e He.
    destruct (validate target (active_groups target)) as [e'|] eqn:Hv; [|discriminate].
    injection He as <-. exact (validate_some _ _ _ Hv).
  - intros c1 c2 e.
    destruct (validate target (active_groups target)); [exact id|discriminate].
  - intros current. reflexivity.
Qed.

(** ** The sequence generator *)

Lemma dispatchGroup_valid_ok (target current : SplitTable) :
  validate target (active_groups target) = None ->
  dispatchGroup current target =
  Ok (dispatch_loop (R := float) (active_groups target) current target
        (reduce_sum current (active_groups target))
        (reduce_sum target (active_groups target))
        (active_groups target) Train None).
Proof. intros Hv. unfold dispatchGroup, dispatchGroupR. rewrite Hv. reflexivity. Qed.

Lemma gen_loop_snoc (target : SplitTable) (n : nat) :
  validate target (active_groups target) = None ->
  forall current seq g,
  gen_loop target current n = (seq, None) ->
  dispatchGroup (fold_left incr seq current) target = Ok g ->
  gen_loop target current (S n) = (seq ++ [g], None).
Proof.
  intros Hv. induction n as [|n IH]; intros current seq g Hgen Hd.
  - cbn [gen_loop] in Hgen. injection Hgen as <-. cbn [fold_left] in Hd.
    cbn [gen_loop]. rewrite Hd. reflexivity.
  - cbn [gen_loop] in Hgen.
    destruct (dispatchGroup current target) as [g0|e] eqn:Hd0; [|discriminate].
    destruct (gen_loop target (incr current g0) n) as [ys err] eqn:Hys.
    injection Hgen as <- ->.
    cbn [fold_left] in Hd.
    specialize (IH (incr current g0) ys g Hys Hd).
    change (gen_loop target current (S (S n)))
      with (match dispatchGroup current target with
            | Throw e => ([], Some e)
            | Ok group_type =>
                let '(ys, err) := gen_loop target (incr current group_type) (S n) in
                (group_type :: ys, err)
            end).
    rewrite Hd0, IH. reflexivity.
Qed.

(** C6: for a valid target and every [total], the generator yields exactly
    [total] splits without throwing, and they are the decisions obtained
    by starting from all-zero counts and [total] times calling
    [dispatchGroup] and incrementing the chosen split's count. *)
Theorem genDispatchGroupSequence_refines (target : SplitTable) (total : nat) :
  (0 < train target)%Z -> (0 < test target)%Z -> (0 <= val target)%Z ->
  exists seq,
    genDispatchGroupSequence target total = (seq, None) /\
    length seq = total /\
    drive_dispatcher target total = Ok (seq, fold_left incr seq zero_table).
Proof.
  intros Htr Hte Hvl.
  pose proof (validate_active_ok target Htr Hte Hvl) as Hv.
  unfold genDispatchGroupSequence.
  induction total as [|n (seq & Hgen & Hlen & Hdrive)].
  - exists []. auto.
  - pose proof (dispatchGroup_valid_ok target (fold_left incr seq zero_table) Hv) as Hd.
    set (g := dispatch_loop _ _ _ _ _ _ _ _) in Hd.
    exists (seq ++ [g]). split; [|split].
    + exact (gen_loop_snoc target n Hv zero_table seq g Hgen Hd).
    + rewrite length_app, Hlen. simpl. lia.
    + cbn [drive_dispatcher]. rewrite Hdrive, Hd.
      rewrite fold_left_app. reflexivity.
Qed.

Lemma genDispatchGroupSequence_refines_witness :
  exists seq,
    genDispatchGroupSequence (mkTable 7 1 2) 5 = (seq, None) /\
    length seq = 5%nat /\
    drive_dispatcher (mkTable 7 1 2) 5 = Ok (seq, fold_left incr seq zero_table).
Proof.
  apply (genDispatchGroupSequence_refines (mkTable 7 1 2) 5); simpl; lia.
Defined.

Lemma gen_7_2_1_counts :
  match genDispatchGroupSequence (mkTable 7 1 2) 10000 with
  | (seq, err) => (err, count_of Train seq, count_of Val seq, count_of Test seq)
  end = (None, 7000%Z, 1000%Z, 2000%Z).
Proof. vm_compute. reflexivity. Qed.

(** C3: for target [{train:7, test:2, val:1}], 10,000 pulls of the
    generator give final counts with [count[s]/10000] within [0.01] of
    [target[s]/10] for each split. *)
Theorem genDispatchGroupSequence_converges_7_2_1 :
  match genDispatchGroupSequence (mkTable 7 1 2) 10000 with
  | (seq, err) =>
      err = None /\
      forall g, (Qabs (inject_Z (count_of g seq) / 10000
                       - inject_Z (get (mkTable 7 1 2) g) / 10) <= 1 # 100)%Q
  end.
Proof.
  pose proof gen_7_2_1_counts as H.
  destruct (genDispatchGroupSequence (mkTable 7 1 2) 10000) as [seq err].
  injection H as -> H1 H2 H3. split; [reflexivity|].
  intros []; cbn [get train val test];
    [rewrite H1 | rewrite H2 | rewrite H3];
    apply Qle_bool_iff; vm_compute; reflexivity.
Qed.

(** ** The steady-state rule *)

(** The steady-state rule in the spec's words, in exact arithmetic: the
    sum over the active splits of the squared deviation between the
    simulated proportion (candidate [S] incremented, total incremented)
    and the target proportion. *)
Definition spec_total (t : SplitTable) (gs : list GroupType) : Z :=
  fold_right (fun g acc => (get t g + acc)%Z) 0%Z gs.

Definition spec_deviation_over (gs : list GroupType) (current target : SplitTable)
    (S : GroupType) : Q :=
  let simulated := incr current S in
  let simulated_total := (spec_total current gs + 1)%Z in
  let total_target := spec_total target gs in
  fold_right (fun s acc =>
      let d := (inject_Z (get simulated s) / inject_Z simulated_total
                - inject_Z (get target s) / inject_Z total_target)%Q in
      (d * d + acc)%Q)
    0%Q gs.

Definition spec_deviation (current target : SplitTable) (S : GroupType) : Q :=
  spec_deviation_over (active_groups target) current target S.

(** [S] minimises [f] over [gs], and every split before [S] in [gs] is
    strictly worse (ties go to the earliest split). *)
Definition first_minimiser (f : GroupType -> Q) (gs : list GroupType) (S : GroupType) : Prop :=
  exists pre post, gs = pre ++ S :: post /\
    (forall g, In g pre -> (f S < f g)%Q) /\
    (forall g, In g post -> (f S <= f g)%Q).

Lemma fold_left_Qsum {A} (f g : A -> Q) (l : list A) (acc : Q) :
  (forall x, In x l -> f x == g x)%Q ->
  (fold_left (fun s x => s + f x) l acc == acc + fold_right (fun x a => g x + a) 0 l)%Q.
Proof.
  revert acc. induction l as [|x l IH]; intros acc Hfg; simpl.
  - ring.
  - rewrite IH by (intros y Hy; apply Hfg; right; exact Hy).
    rewrite (Hfg x (or_introl eq_refl)). ring.
Qed.

Lemma reduce_sum_Q (t : SplitTable) (gs : list GroupType) :
  (reduce_sum (R := Q) t gs == inject_Z (spec_total t gs))%Q.
Proof.
  unfold reduce_sum. cbv [n_add n_of_Z n_zero Q_ops].
  rewrite (fold_left_Qsum (fun g => inject_Z (get t g)) (fun g => inject_Z (get t g)))
    by (intros; reflexivity).
  induction gs as [|g gs IH]; simpl.
  - reflexivity.
  - rewrite inject_Z_plus, <- IH. ring.
Qed.

Lemma group_error_Q (gs : list GroupType) (current target : SplitTable) (S : GroupType) :
  (group_error (R := Q) gs current target (reduce_sum current gs) (reduce_sum target gs) S
   == spec_deviation_over gs current target S)%Q.
Proof.
  unfold group_error, spec_deviation_over.
  cbv [n_add n_sub n_mul n_div n_of_Z n_zero Q_ops].
  rewrite fold_left_Qsum with
    (g := fun s => ((inject_Z (get (incr current S) s) /
                       inject_Z (spec_total current gs + 1)
                     - inject_Z (get target s) / inject_Z (spec_total target gs)) *
                    (inject_Z (get (incr current S) s) /
                       inject_Z (spec_total current gs + 1)
                     - inject_Z (get target s) / inject_Z (spec_total target gs)))%Q).
  - ring.
  - intros s _.
    pose proof (reduce_sum_Q current gs) as Hc.
    pose proof (reduce_sum_Q target gs) as Ht.
    cbv [reduce_sum n_add n_of_Z n_zero Q_ops] in Hc, Ht.
    rewrite Hc, Ht, inject_Z_plus. reflexivity.
Qed.

Lemma Q_better_some (e b : Q) : better (R := Q) e (Some b) = true <-> (e < b)%Q.
Proof.
  cbv [better n_ltb Q_ops]. rewrite negb_true_iff.
  split.
  - intros Hf. apply Qnot_le_lt. intros Hle. apply Qle_bool_iff in Hle. congruence.
  - intros Hlt. destruct (Qle_bool b e) eqn:Hb; [|reflexivity].
    apply Qle_bool_iff in Hb. exfalso. apply (Qlt_not_le _ _ Hlt Hb).
Qed.

(** The loop over exact rationals: with no zero count left, it returns
    either the current best (beaten by nobody) or a later split that is
    strictly better than the current best and than every split before it,
    and no worse than every split after it. *)
Lemma dispatch_loop_Q gs current target tc tt todo b eb :
  (forall g, In g todo -> get current g <> 0%Z) ->
  let E := group_error (R := Q) gs current target tc tt in
  let x := dispatch_loop (R := Q) gs current target tc tt todo b (Some eb) in
  (x = b /\ forall g, In g todo -> (eb <= E g)%Q) \/
  (exists pre post, todo = pre ++ x :: post /\ (E x < eb)%Q /\
     (forall g, In g pre -> (E x < E g)%Q) /\
     (forall g, In g post -> (E x <= E g)%Q)).
Proof.
  revert b eb. induction todo as [|a rest IH]; intros b eb Hnz E x.
  - left. split; [reflexivity|intros g []].
  - subst x. cbn [dispatch_loop].
    assert (Ha : Z.eqb (get current a) 0 = false)
      by (apply Z.eqb_neq; apply Hnz; left; reflexivity).
    rewrite Ha.
    assert (Hrest : forall g, In g rest -> get current g <> 0%Z)
      by (intros g Hg; apply Hnz; right; exact Hg).
    fold E.
    destruct (better (E a) (Some eb)) eqn:Hbt.
    + apply Q_better_some in Hbt.
      destruct (IH a (E a) Hrest) as [[Hx Hall]|(pre & post & Heq & Hlt & Hpre & Hpost)].
      * right. exists [], rest. rewrite Hx. repeat split; auto. intros g [].
      * right. exists (a :: pre), post. repeat split.
        -- simpl. f_equal. exact Heq.
        -- apply Qlt_trans with (E a); assumption.
        -- intros g [<-|Hg]; [exact Hlt|exact (Hpre g Hg)].
        -- exact Hpost.
    + assert (Hle : (eb <= E a)%Q).
      { apply Qnot_lt_le. intros Hlt. apply Q_better_some in Hlt. congruence. }
      destruct (IH b eb Hrest) as [[Hx Hall]|(pre & post & Heq & Hlt & Hpre & Hpost)].
      * left. split; [exact Hx|]. intros g [<-|Hg]; [exact Hle|exact (Hall g Hg)].
      * right. exists (a :: pre), post. repeat split.
        -- simpl. f_equal. exact Heq.
        -- exact Hlt.
        -- intros g [<-|Hg]; [apply Qlt_le_trans with eb; assumption|exact (Hpre g Hg)].
        -- exact Hpost.
Qed.

Lemma first_minimiser_Qeq (f h : GroupType -> Q) gs S :
  (forall g, f g == h g)%Q -> first_minimiser f gs S -> first_minimiser h gs S.
Proof.
  intros Hfh (pre & post & Heq & Hpre & Hpost). exists pre, post.
  split; [exact Heq|split].
  - intros g Hg. rewrite <- !Hfh. exact (Hpre g Hg).
  - intros g Hg. rewrite <- !Hfh. exact (Hpost g Hg).
Qed.

Lemma dispatch_loop_Q_top gs current target tc tt rest :
  (forall g, In g (Train :: rest) -> get current g <> 0%Z) ->
  first_minimiser (group_error (R := Q) gs current target tc tt) (Train :: rest)
    (dispatch_loop (R := Q) gs current target tc tt (Train :: rest) Train None).
Proof.
  intros Hnz. cbn [dispatch_loop].
  assert (Ht : Z.eqb (get current Train) 0 = false)
    by (apply Z.eqb_neq; apply Hnz; left; reflexivity).
  rewrite Ht. change (better (R := Q) _ None) with true. cbv iota.
  assert (Hrest : forall g, In g rest -> get current g <> 0%Z)
    by (intros g Hg; apply Hnz; right; exact Hg).
  destruct (dispatch_loop_Q gs current target tc tt rest Train
              (group_error (R := Q) gs current target tc tt Train) Hrest)
    as [[Hx Hall]|(pre & post & Heq & Hlt & Hpre & Hpost)].
  - rewrite Hx. exists [], rest. repeat split; auto. intros g [].
  - exists (Train :: pre), post. repeat split.
    + simpl. f_equal. exact Heq.
    + intros g [<-|Hg]; [exact Hlt|exact (Hpre g Hg)].
    + exact Hpost.
Qed.

Lemma active_groups_head (target : SplitTable) :
  exists rest, active_groups target = Train :: rest.
Proof. unfold active_groups. destruct (Z.eqb (val target) 0); eexists; reflexivity. Qed.

Lemma not_first_minimiser_Val (f : GroupType -> Q) :
  (f Val == f Train)%Q -> ~ first_minimiser f [Train; Test; Val] Val.
Proof.
  intros Htie (pre & post & Heq & Hpre & _).
  destruct pre as [|a [|b [|c pre]]]; simpl in Heq; try discriminate.
  - injection Heq as <- <- _. specialize (Hpre Train (or_introl eq_refl)).
    rewrite Htie in Hpre. exact (Qlt_irrefl _ Hpre).
  - injection Heq as _ _ _ Hnil. destruct pre; discriminate.
Qed.

(** C1 (counterexample): the claim fails on the code.  For counts
    [{train:1, test:2, val:1}] and target [{train:1, test:1, val:1}] (all
    active counts positive, target valid), train and val tie exactly for
    the least squared deviation, so the claim asks for train; the code
    evaluates the errors in doubles, where val's sum rounds below
    train's, and returns val. *)
Lemma dispatchGroup_steady_state_counterexample :
  ~ (forall current target,
       (0 < train target)%Z -> (0 < test target)%Z -> (0 <= val target)%Z ->
       (forall g, In g (active_groups target) -> (0 < get current g)%Z) ->
       exists S, dispatchGroup current target = Ok S /\
         first_minimiser (spec_deviation current target) (active_groups target) S).
Proof.
  intros Hclaim.
  destruct (Hclaim (mkTable 1 1 2) (mkTable 1 1 1)) as (S & HS & Hmin).
  - simpl; lia.
  - simpl; lia.
  - simpl; lia.
  - intros g Hg. vm_compute in Hg. destruct Hg as [<-|[<-|[<-|[]]]]; simpl; lia.
  - assert (HV : dispatchGroup (mkTable 1 1 2) (mkTable 1 1 1) = Ok Val)
      by (vm_compute; reflexivity).
    rewrite HV in HS. injection HS as <-.
    revert Hmin. change (active_groups (mkTable 1 1 1)) with [Train; Test; Val].
    apply not_first_minimiser_Val. vm_compute. reflexivity.
Qed.

(** C1 (amended): read in exact rational arithmetic, the code's
    steady-state rule is the spec's: for a valid target and counts that
    are positive on every active split, [dispatchGroup] returns the split
    minimising the sum of squared deviations, ties going to the earliest
    split in the order train, test, val. *)
Theorem dispatchGroupQ_steady_state (current target : SplitTable) :
  (0 < train target)%Z -> (0 < test target)%Z -> (0 <= val target)%Z ->
  (forall g, In g (active_groups target) -> (0 < get current g)%Z) ->
  exists S, dispatchGroupQ current target = Ok S /\
    first_minimiser (spec_deviation current target) (active_groups target) S.
Proof.
  intros Htr Hte Hvl Hpos.
  pose proof (validate_active_ok target Htr Hte Hvl) as Hv.
  unfold dispatchGroupQ, dispatchGroupR. rewrite Hv.
  eexists; split; [reflexivity|].
  apply first_minimiser_Qeq with
    (f := group_error (R := Q) (active_groups target) current target
            (reduce_sum current (active_groups target))
            (reduce_sum target (active_groups target))).
  { intros g. apply group_error_Q. }
  unfold spec_deviation.
  destruct (active_groups_head target) as [rest Hr].
  rewrite Hr in Hpos |- *.
  apply dispatch_loop_Q_top.
  intros g Hg. specialize (Hpos g Hg). lia.
Qed.

Lemma dispatchGroupQ_steady_state_witness :
  exists S, dispatchGroupQ (mkTable 1 1 2) (mkTable 1 1 1) = Ok S /\
    first_minimiser (spec_deviation (mkTable 1 1 2) (mkTable 1 1 1))
      (active_groups (mkTable 1 1 1)) S.
Proof.
  apply dispatchGroupQ_steady_state; [simpl; lia..|].
  intros g Hg. vm_compute in Hg. destruct Hg as [<-|[<-|[<-|[]]]]; simpl; lia.
Defined.

(** ** The orchestrator *)

Lemma Group_eqb_spec (a b : Group) : Group_eqb a b = true <-> a = b.
Proof.
  destruct a as [[]|], b as [[]|]; simpl; split; congruence.
Qed.

Lemma existsb_Group_In (g : Group) (l : list Group) :
  existsb (Group_eqb g) l = true <-> In g l.
Proof.
  rewrite existsb_exists. split.
  - intros (x & Hx & Heq). apply Group_eqb_spec in Heq. subst. exact Hx.
  - intros Hg. exists g. split; [exact Hg|]. apply Group_eqb_spec. reflexivity.
Qed.

Section OrchestratorFacts.
Context {Annotation : Type}.
Implicit Types (o : HelperOptions Annotation) (st : St Annotation)
  (ss : list (Sample Annotation)).

(** The calls to [saveSample] in a call log, by the sample they got. *)
Definition saved_samples (l : list (Event Annotation)) : list (Sample Annotation) :=
  flat_map (fun ev => match ev with SaveCall s _ => [s] | FinalizeCall _ => [] end) l.

(** The dispatcher passed to the helper never throws. *)
Definition dispatch_never_throws o : Prop :=
  match dispatchGroupToCall o with
  | None => True
  | Some d => forall s c, exists g, d s c = Ok g
  end.

Lemma helper_loop_cons o s ss st :
  helper_loop o (s :: ss) st =
  match choose_group o s st with
  | Done g st1 =>
      match record_group g st1 with
      | Done _ st2 =>
          match call_save o s g st2 with
          | Done _ st3 => helper_loop o ss st3
          | Failed e st3 => Failed e st3
          end
      | Failed e st2 => Failed e st2
      end
  | Failed e st1 => Failed e st1
  end.
Proof. reflexivity. Qed.

Lemma record_group_spec (g : Group) st :
  record_group g st =
  Done tt (mkSt (currentRatioByClass st)
                (if existsb (Group_eqb g) (groupTypes st) then groupTypes st
                 else groupTypes st ++ [g])
                (calls st)).
Proof. unfold record_group. destruct (existsb _ _); [destruct st|]; reflexivity. Qed.

Lemma record_group_NoDup (g : Group) (l : list Group) :
  NoDup l ->
  NoDup (if existsb (Group_eqb g) l then l else l ++ [g]).
Proof.
  intros Hl. destruct (existsb (Group_eqb g) l) eqn:He; [exact Hl|].
  apply NoDup_app. split; [exact Hl|]. split.
  - intros x Hx Hx'. apply list_elem_of_singleton in Hx'. subst x.
    apply list_elem_of_In, existsb_Group_In in Hx. congruence.
  - apply NoDup_singleton.
Qed.

Lemma record_group_In (g x : Group) (l : list Group) :
  In x (if existsb (Group_eqb g) l then l else l ++ [g]) <-> In x l \/ x = g.
Proof.
  destruct (existsb (Group_eqb g) l) eqn:He.
  - apply existsb_Group_In in He. split; [tauto|]. intros [Hx| ->]; assumption.
  - rewrite in_app_iff. simpl. intuition.
Qed.

(** Pass-through mode with a sink that always succeeds: one save call per
    sample, in order, with the sample's own tag; [groupTypes] gains the
    distinct tags seen; the counts table is not touched. *)
Lemma helper_loop_pass_through o ss st :
  dispatchGroupToCall o = None ->
  (forall k s g, saveSample o k s g = None) ->
  exists st', helper_loop o ss st = Done tt st' /\
    currentRatioByClass st' = currentRatioByClass st /\
    calls st' = calls st ++ map (fun s => SaveCall s (groupType s)) ss /\
    (NoDup (groupTypes st) -> NoDup (groupTypes st')) /\
    (forall g, In g (groupTypes st') <->
               In g (groupTypes st) \/ exists s, In s ss /\ groupType s = g).
Proof.
  intros Hd Hsave. revert st. induction ss as [|s ss IH]; intros st.
  - exists st. rewrite app_nil_r. repeat split; auto.
    + intros [Hg|(s & [] & _)]; exact Hg.
  - rewrite helper_loop_cons.
    assert (Hc : choose_group o s st = Done (groupType s) st)
      by (unfold choose_group; rewrite Hd; reflexivity).
    rewrite Hc, record_group_spec. unfold call_save. cbn [calls groupTypes currentRatioByClass].
    rewrite Hsave.
    destruct (IH (mkSt (currentRatioByClass st)
        (if existsb (Group_eqb (groupType s)) (groupTypes st) then groupTypes st
         else groupTypes st ++ [groupType s])
        (calls st ++ [SaveCall s (groupType s)])))
      as (st' & Hrun & Hcnt & Hcalls & Hnd & Hin).
    exists st'. split; [exact Hrun|]. split; [exact Hcnt|]. split; [|split].
    + rewrite Hcalls. simpl. rewrite <- app_assoc. reflexivity.
    + intros H0. apply Hnd. simpl. apply record_group_NoDup. exact H0.
    + intros g. rewrite Hin. simpl. rewrite record_group_In. split.
      * intros [[Hg| ->]|(s' & Hs' & Hg)]; [left; exact Hg|right|right].
        -- exists s. split; [left|]; reflexivity.
        -- exists s'. split; [right|]; assumption.
      * intros [Hg|(s' & [<-|Hs'] & Hg)].
        -- left; left; exact Hg.
        -- left; right; symmetry; exact Hg.
        -- right. exists s'. split; assumption.
Qed.

(** A whole pass-through run with a sink that always succeeds. *)
Lemma run_pass_through o f :
  dispatchGroupToCall o = None ->
  (forall k s g, saveSample o k s g = None) ->
  createDirsAndMetadata o = Some f ->
  exists gs,
    NoDup gs /\
    (forall g, In g gs <-> exists s, In s (generateSampleSequence o) /\ groupType s = g) /\
    let st := mkSt ∅ gs (map (fun s => SaveCall s (groupType s)) (generateSampleSequence o)
                         ++ [FinalizeCall gs]) in
    run o = match f gs with None => Done tt st | Some e => Failed e st end.
Proof.
  intros Hd Hsave Hf.
  destruct (helper_loop_pass_through o (generateSampleSequence o) initial_state Hd Hsave)
    as (st' & Hrun & Hcnt & Hcalls & Hnd & Hin).
  exists (groupTypes st'). split; [apply Hnd; constructor|]. split.
  - intros g. rewrite Hin. simpl. split; [intros [[]|H]; exact H|intros H; right; exact H].
  - unfold run, exportDatasetHelper, bind. rewrite Hrun.
    unfold finalize. rewrite Hf. cbn [initial_state calls] in Hcalls, Hcnt.
    rewrite Hcalls, Hcnt. reflexivity.
Qed.

End OrchestratorFacts.

(** C9: in pass-through mode (no [dispatchGroupToCall]) with a sink that
    accepts every sample, [saveSample] is called once per sample, in
    arrival order, with the sample's own tag, and then
    [createDirsAndMetadata] is called exactly once, with the distinct tags
    that received a sample. *)
Theorem exportDatasetHelper_pass_through {Annotation : Type}
    (o : HelperOptions Annotation) (f : list Group -> option Error) :
  dispatchGroupToCall o = None ->
  (forall k s g, saveSample o k s g = None) ->
  createDirsAndMetadata o = Some f ->
  exists gs,
    calls (outcome_state (run o)) =
      map (fun s => SaveCall s (groupType s)) (generateSampleSequence o)
      ++ [FinalizeCall gs] /\
    NoDup gs /\
    (forall g, In g gs <-> exists s, In s (generateSampleSequence o) /\ groupType s = g).
Proof.
  intros Hd Hsave Hf.
  destruct (run_pass_through o f Hd Hsave Hf) as (gs & Hnd & Hin & Hrun).
  exists gs. split; [|split; assumption].
  rewrite Hrun. destruct (f gs); reflexivity.
Qed.

Definition example_sample (id : Z) (g : Group) : Sample unit :=
  mkSample id "image.jpg"%string "cat"%string g tt.

Definition pass_through_options (samples : list (Sample unit)) : HelperOptions unit :=
  Build_HelperOptions samples None (fun _ _ _ => None) (Some (fun _ => None)).

Lemma exportDatasetHelper_pass_through_witness :
  let o := pass_through_options
             [example_sample 1 (Grp Train); example_sample 2 (Grp Val);
              example_sample 3 (Grp Test)] in
  exists gs,
    calls (outcome_state (run o)) =
      map (fun s => SaveCall s (groupType s)) (generateSampleSequence o)
      ++ [FinalizeCall gs] /\
    NoDup gs /\
    (forall g, In g gs <-> exists s, In s (generateSampleSequence o) /\ groupType s = g).
Proof.
  apply (exportDatasetHelper_pass_through _ (fun _ => None)); reflexivity.
Defined.

(** C10: in pass-through mode a sample tagged [""] is accepted: with sinks
    that succeed, the run completes without error, [saveSample] receives
    [""] for that sample and [""] is among the groups handed to
    [createDirsAndMetadata]. *)
Theorem exportDatasetHelper_ungrouped_accepted {Annotation : Type}
    (o : HelperOptions Annotation) (f : list Group -> option Error)
    (s : Sample Annotation) :
  dispatchGroupToCall o = None ->
  (forall k s g, saveSample o k s g = None) ->
  createDirsAndMetadata o = Some f ->
  (forall gs, f gs = None) ->
  In s (generateSampleSequence o) -> groupType s = Ungrouped ->
  exists st gs, run o = Done tt st /\
    In (SaveCall s Ungrouped) (calls st) /\
    In (FinalizeCall gs) (calls st) /\ In Ungrouped gs.
Proof.
  intros Hd Hsave Hf Hfok Hs Hg.
  destruct (run_pass_through o f Hd Hsave Hf) as (gs & Hnd & Hin & Hrun).
  rewrite Hfok in Hrun.
  eexists; exists gs. split; [exact Hrun|]. cbn [calls]. split; [|split].
  - apply in_or_app. left. rewrite <- Hg.
    apply (in_map (fun s => SaveCall s (groupType s))). exact Hs.
  - apply in_or_app. right. left. reflexivity.
  - apply Hin. exists s. split; assumption.
Qed.

Lemma exportDatasetHelper_ungrouped_accepted_witness :
  let s := example_sample 7 Ungrouped in
  let o := pass_through_options [example_sample 1 (Grp Train); s] in
  exists st gs, run o = Done tt st /\
    In (SaveCall s Ungrouped) (calls st) /\
    In (FinalizeCall gs) (calls st) /\ In Ungrouped gs.
Proof.
  apply (exportDatasetHelper_ungrouped_accepted _ (fun _ => None)); try reflexivity.
  simpl. right. left. reflexivity.
Defined.

Section FailureFacts.
Context {Annotation : Type}.
Implicit Types (o : HelperOptions Annotation) (st : St Annotation)
  (ss : list (Sample Annotation)).

Lemma choose_group_never_throws o s st :
  dispatch_never_throws o ->
  exists g st1, choose_group o s st = Done g st1 /\ calls st1 = calls st.
Proof.
  unfold dispatch_never_throws, choose_group.
  destruct (dispatchGroupToCall o) as [d|]; intros Hd.
  - destruct (Hd s (default zero_table (currentRatioByClass st !! categoryName s)))
      as [g Hg].
    rewrite Hg. do 2 eexists. split; reflexivity.
  - do 2 eexists. split; reflexivity.
Qed.

Lemma saves_count_snoc (l : list (Event Annotation)) s g :
  length (filter (fun ev => is_save_call ev) (l ++ [SaveCall s g]))
  = S (length (filter (fun ev => is_save_call ev) l)).
Proof. rewrite filter_app, length_app. simpl. lia. Qed.

(** The sink rejects its call number [k] (counting from 0): the loop stops
    there with that error, after exactly the save calls of the samples up
    to that one. *)
Lemma helper_loop_save_fails o e k ss st :
  dispatch_never_throws o ->
  (forall i s g, (i < k)%nat -> saveSample o i s g = None) ->
  (forall s g, saveSample o k s g = Some e) ->
  (length (filter (fun ev => is_save_call ev) (calls st)) <= k)%nat ->
  (k < length (filter (fun ev => is_save_call ev) (calls st)) + length ss)%nat ->
  exists st' new, helper_loop o ss st = Failed e st' /\
    calls st' = calls st ++ new /\
    Forall (fun ev => is_save_call ev = true) new /\
    saved_samples new =
      firstn (S (k - length (filter (fun ev => is_save_call ev) (calls st)))) ss.
Proof.
  intros Hd Hok Hko. revert st.
  induction ss as [|s ss IH]; intros st Hle Hlt; [simpl in Hlt; lia|].
  rewrite helper_loop_cons.
  destruct (choose_group_never_throws o s st Hd) as (g & st1 & Hc & Hcalls1).
  rewrite Hc, record_group_spec. unfold call_save. cbn [calls groupTypes currentRatioByClass].
  rewrite Hcalls1.
  set (n := length (filter (fun ev => is_save_call ev) (calls st))) in *.
  destruct (Nat.eq_dec n k) as [Hnk|Hnk].
  - rewrite Hnk, Hko. do 2 eexists. split; [reflexivity|]. split; [reflexivity|].
    split; [repeat constructor|].
    replace (k - k)%nat with 0%nat by lia. reflexivity.
  - rewrite (Hok n) by lia.
    destruct (IH (mkSt (currentRatioByClass st1)
        (if existsb (Group_eqb g) (groupTypes st1) then groupTypes st1
         else groupTypes st1 ++ [g])
        (calls st ++ [SaveCall s g])))
      as (st' & new & Hrun & Hcalls & Hall & Hsaved);
      cbn [calls]; rewrite ?saves_count_snoc; fold n; [lia|simpl in Hlt; lia|].
    exists st', (SaveCall s g :: new). split; [exact Hrun|]. split.
    + rewrite Hcalls. cbn [calls]. rewrite <- app_assoc. reflexivity.
    + split; [constructor; [reflexivity|exact Hall]|].
      cbn [saved_samples flat_map app]. fold (saved_samples new).
      cbn [calls] in Hsaved. rewrite Hsaved, saves_count_snoc. fold n.
      replace (k - n)%nat with (S (k - S n)) by lia. reflexivity.
Qed.

End FailureFacts.

(** C8: if [saveSample] rejects its call number [k] (counting from 0, so
    on the [(k+1)]-th sample), and the dispatch itself never throws, the
    run fails with that same error, [saveSample] has been called for the
    first [k+1] samples only, and [createDirsAndMetadata] is not called
    (every recorded call is a save call). *)
Theorem exportDatasetHelper_save_failure {Annotation : Type}
    (o : HelperOptions Annotation) (k : nat) (e : Error) :
  dispatch_never_throws o ->
  (forall i s g, (i < k)%nat -> saveSample o i s g = None) ->
  (forall s g, saveSample o k s g = Some e) ->
  (k < length (generateSampleSequence o))%nat ->
  exists st, run o = Failed e st /\
    Forall (fun ev => is_save_call ev = true) (calls st) /\
    saved_samples (calls st) = firstn (S k) (generateSampleSequence o).
Proof.
  intros Hd Hok Hko Hk.
  destruct (helper_loop_save_fails o e k (generateSampleSequence o) initial_state
              Hd Hok Hko ltac:(simpl; lia) ltac:(simpl; lia))
    as (st' & new & Hrun & Hcalls & Hall & Hsaved).
  exists st'. split.
  - unfold run, exportDatasetHelper, bind. rewrite Hrun. reflexivity.
  - rewrite Hcalls. simpl. rewrite Nat.sub_0_r in Hsaved. split; assumption.
Qed.

Definition failing_save_options : HelperOptions unit :=
  Build_HelperOptions
    (map (fun i => example_sample (Z.of_nat i) (Grp Train)) (seq 1 10))
    None
    (fun i _ _ => if Nat.eqb i 2 then Some (SinkError 500) else None)
    (Some (fun _ => None)).

Lemma exportDatasetHelper_save_failure_witness :
  exists st, run failing_save_options = Failed (SinkError 500) st /\
    Forall (fun ev => is_save_call ev = true) (calls st) /\
    saved_samples (calls st) = firstn 3 (generateSampleSequence failing_save_options).
Proof.
  apply (exportDatasetHelper_save_failure failing_save_options 2 (SinkError 500)).
  - exact I.
  - intros i s g Hi. destruct i as [|[|i]]; [reflexivity|reflexivity|lia].
  - intros s g. reflexivity.
  - simpl. lia.
Defined.

(** ** The caller override *)

(** Per-class tally of the override's decisions over a sample sequence,
    starting from the entry [acc] of class [c]. *)
Definition tally {Annotation : Type} (custom : Sample Annotation -> GroupType)
    (ss : list (Sample Annotation)) (c : string) (acc : option SplitTable)
    : option SplitTable :=
  fold_left (fun acc s =>
      if decide (categoryName s = c)
      then Some (incr (default zero_table acc) (custom s)) else acc)
    ss acc.

Section OverrideFacts.
Context {Annotation : Type}.
Implicit Types (o : HelperOptions Annotation) (st : St Annotation)
  (ss : list (Sample Annotation)).

Lemma helper_loop_override o custom ratio ss st :
  dispatchGroupToCall o = coco_dispatchGroupToCall (Some custom) ratio ->
  (forall k s g, saveSample o k s g = None) ->
  exists st', helper_loop o ss st = Done tt st' /\
    calls st' = calls st ++ map (fun s => SaveCall s (Grp (custom s))) ss /\
    (forall c, currentRatioByClass st' !! c
               = tally custom ss c (currentRatioByClass st !! c)).
Proof.
  intros Hd Hsave. revert st. induction ss as [|s ss IH]; intros st.
  - exists st. rewrite app_nil_r. auto.
  - rewrite helper_loop_cons. unfold choose_group at 1. rewrite Hd.
    cbn [coco_dispatchGroupToCall set_counts currentRatioByClass groupTypes calls].
    rewrite record_group_spec. unfold call_save.
    cbn [calls groupTypes currentRatioByClass]. rewrite Hsave.
    match goal with |- context [helper_loop o ss ?st3] => destruct (IH st3)
      as (st' & Hrun & Hcalls & Hcnt) end.
    exists st'. split; [exact Hrun|]. split.
    + rewrite Hcalls. cbn [calls]. rewrite <- app_assoc. reflexivity.
    + intros c. rewrite Hcnt. cbn [currentRatioByClass tally fold_left].
      unfold tally. f_equal.
      unfold set_counts. cbn [currentRatioByClass].
      rewrite !lookup_insert.
      destruct (decide (categoryName s = c)) as [<-|Hne]; reflexivity.
Qed.

Lemma filter_saves_map (f : Sample Annotation -> Group) ss :
  filter (fun ev => is_save_call ev) (map (fun s => SaveCall s (f s)) ss)
  = map (fun s => SaveCall s (f s)) ss.
Proof. induction ss as [|s ss IH]; [reflexivity|]. simpl. rewrite filter_cons_True by exact I. f_equal. exact IH. Qed.

End OverrideFacts.

Definition override_options : HelperOptions unit :=
  Build_HelperOptions
    [example_sample 1 (Grp Val)]
    (coco_dispatchGroupToCall (Some (fun _ => Test)) None)
    (fun _ _ _ => None)
    (Some (fun _ => None)).

(** C7 (counterexample): with an override present the per-class counts
    are not left untouched.  One sample of class "cat" and an override
    always answering test: the run succeeds, and the counts table, empty
    at the start, ends with the entry [cat -> {train:0, val:0, test:1}]. *)
Lemma exportCocoDataset_override_counts_counterexample :
  (exists st, run override_options = Done tt st) /\
  currentRatioByClass (outcome_state (run override_options))
    = {[ "cat"%string := mkTable 0 0 1 ]} /\
  currentRatioByClass (outcome_state (run override_options))
    <> currentRatioByClass (initial_state (Annotation := unit)).
Proof.
  split; [eexists; reflexivity|]. split; [reflexivity|].
  intros H. apply (f_equal (lookup "cat"%string)) in H.
  vm_compute in H. discriminate H.
Qed.

(** C7 (amended): when [exportCocoDataset] has a caller override
    [customDispatchGroup] and every save succeeds, [saveSample] is called
    once per sample, in arrival order, with the override's decision for
    that sample; the per-class counts are still kept: each class's entry
    is created with zeros and incremented by the override's decisions, so
    it ends as the per-class tally of those decisions (the override never
    reads it). *)
Theorem exportCocoDataset_override_decides {Annotation : Type}
    (o : HelperOptions Annotation) (custom : Sample Annotation -> GroupType)
    (ratio : option SplitTable) :
  dispatchGroupToCall o = coco_dispatchGroupToCall (Some custom) ratio ->
  (forall k s g, saveSample o k s g = None) ->
  filter (fun ev => is_save_call ev) (calls (outcome_state (run o)))
    = map (fun s => SaveCall s (Grp (custom s))) (generateSampleSequence o) /\
  (forall c, currentRatioByClass (outcome_state (run o)) !! c
             = tally custom (generateSampleSequence o) c None).
Proof.
  intros Hd Hsave.
  destruct (helper_loop_override o custom ratio (generateSampleSequence o)
              initial_state Hd Hsave) as (st' & Hrun & Hcalls & Hcnt).
  cbn [initial_state calls currentRatioByClass app] in Hcalls, Hcnt.
  unfold run, exportDatasetHelper, bind. rewrite Hrun.
  unfold finalize. destruct (createDirsAndMetadata o) as [f|].
  - destruct (f (groupTypes st')); cbn [outcome_state calls currentRatioByClass];
      (split; [rewrite filter_app, Hcalls, filter_saves_map; simpl; apply app_nil_r
              |intros c; rewrite Hcnt; reflexivity]).
  - cbn [outcome_state]. split.
    + rewrite Hcalls. apply filter_saves_map.
    + intros c. rewrite Hcnt. reflexivity.
Qed.

Lemma exportCocoDataset_override_decides_witness :
  filter (fun ev => is_save_call ev) (calls (outcome_state (run override_options)))
    = map (fun s => SaveCall s (Grp ((fun _ => Test) s)))
          (generateSampleSequence override_options) /\
  (forall c, currentRatioByClass (outcome_state (run override_options)) !! c
             = tally (fun _ => Test) (generateSampleSequence override_options) c None).
Proof.
  apply (exportCocoDataset_override_decides override_options (fun _ => Test) None);
    reflexivity.
Defined.

(* ================================================================== *)
(** * Further properties of the code *)

(** ** Dispatcher and generator *)

(** X1: the generator validates lazily: for a target that fails
    validation with error [e], zero pulls yield nothing and throw nothing,
    while any positive number of pulls throws [e] on the first pull,
    before yielding. *)
Theorem genDispatchGroupSequence_lazy_validation (target : SplitTable) (e : Error) :
  validate target (active_groups target) = Some e ->
  genDispatchGroupSequence target 0 = ([], None) /\
  (forall n, (0 < n)%nat -> genDispatchGroupSequence target n = ([], Some e)).
Proof.
  intros Hv. split; [reflexivity|].
  intros [|n] Hn; [lia|].
  unfold genDispatchGroupSequence. cbn [gen_loop].
  unfold dispatchGroup, dispatchGroupR. rewrite Hv. reflexivity.
Qed.

Lemma genDispatchGroupSequence_lazy_validation_witness :
  genDispatchGroupSequence (mkTable 0 1 1) 0 = ([], None) /\
  (forall n, (0 < n)%nat ->
     genDispatchGroupSequence (mkTable 0 1 1) n = ([], Some (InvalidTarget Train 0))).
Proof. apply genDispatchGroupSequence_lazy_validation. reflexivity. Defined.

Lemma gen_loop_prefix (target current : SplitTable) (n m : nat) :
  exists rest, fst (gen_loop target current (n + m)) = fst (gen_loop target current n) ++ rest.
Proof.
  revert current. induction n as [|n IH]; intros current.
  - exists (fst (gen_loop target current m)). reflexivity.
  - cbn [gen_loop Nat.add].
    destruct (dispatchGroup current target) as [g|e]; [|exists []; reflexivity].
    destruct (IH (incr current g)) as [rest Hrest].
    destruct (gen_loop target (incr current g) (n + m)) as [ys err] eqn:E1.
    destruct (gen_loop target (incr current g) n) as [zs err'] eqn:E2.
    exists rest. simpl in *. rewrite Hrest. reflexivity.
Qed.

(** X2: the sequences of different lengths agree: the first [n] splits
    yielded for [total = n + m] are exactly the sequence yielded for
    [total = n], for any target. *)
Theorem genDispatchGroupSequence_prefix (target : SplitTable) (n m : nat) :
  exists rest,
    fst (genDispatchGroupSequence target (n + m))
    = fst (genDispatchGroupSequence target n) ++ rest.
Proof. apply gen_loop_prefix. Qed.

(** X3: in two-way mode ([target.val = 0]) the dispatcher never reads the
    val count of [current]: changing it does not change the result. *)
Theorem dispatchGroup_two_way_ignores_val_count (current target : SplitTable) (v : Z) :
  val target = 0%Z ->
  dispatchGroup current target = dispatchGroup (mkTable (train current) v (test current)) target.
Proof.
  intros Hv. unfold dispatchGroup, dispatchGroupR, active_groups. rewrite Hv.
  destruct current as [ct cv cs]. reflexivity.
Qed.

Lemma dispatchGroup_two_way_ignores_val_count_witness :
  dispatchGroup (mkTable 4 9 1) (mkTable 3 0 1)
  = dispatchGroup (mkTable (train (mkTable 4 9 1)) 0 (test (mkTable 4 9 1))) (mkTable 3 0 1).
Proof. apply dispatchGroup_two_way_ignores_val_count. reflexivity. Defined.

(** ** Ratio-based dispatch in the orchestrator *)

(** The groups chosen for the samples of class [c], in the order of the
    save calls. *)
Definition decisions_for {Annotation : Type} (c : string) (l : list (Event Annotation))
    : list Group :=
  flat_map (fun ev => match ev with
                      | SaveCall s g => if decide (categoryName s = c) then [g] else []
                      | FinalizeCall _ => []
                      end) l.

Definition class_count {Annotation : Type} (c : string) (ss : list (Sample Annotation)) : nat :=
  length (filter (fun s => categoryName s = c) ss).

Section RatioFacts.
Context {Annotation : Type}.
Implicit Types (o : HelperOptions Annotation) (st : St Annotation)
  (ss : list (Sample Annotation)).

Definition ratio_inv (ratio : SplitTable) st (c : string) (D : list GroupType) : Prop :=
  decisions_for c (calls st) = map Grp D /\
  default zero_table (currentRatioByClass st !! c) = fold_left incr D zero_table /\
  gen_loop ratio zero_table (length D) = (D, None).

Lemma helper_loop_ratio o ratio ss st :
  dispatchGroupToCall o = coco_dispatchGroupToCall None (Some ratio) ->
  validate ratio (active_groups ratio) = None ->
  (forall k s g, saveSample o k s g = None) ->
  (forall c, exists D, ratio_inv ratio st c D) ->
  exists st', helper_loop o ss st = Done tt st' /\
    forall c, exists D, ratio_inv ratio st' c D /\
      length D = (length (decisions_for c (calls st)) + class_count c ss)%nat.
Proof.
  intros Hd Hv Hsave. revert st. induction ss as [|s ss IH]; intros st Hinv.
  - exists st. split; [reflexivity|]. intros c. destruct (Hinv c) as [D HD].
    exists D. split; [exact HD|]. destruct HD as [Hdec _].
    rewrite Hdec, length_map. unfold class_count. simpl. lia.
  - rewrite helper_loop_cons. unfold choose_group at 1. rewrite Hd.
    cbn [coco_dispatchGroupToCall set_counts currentRatioByClass groupTypes calls].
    set (cur := default zero_table (currentRatioByClass st !! categoryName s)).
    rewrite (dispatchGroup_valid_ok ratio cur Hv).
    set (g := dispatch_loop _ _ _ _ _ _ _ _).
    rewrite record_group_spec. unfold call_save.
    cbn [calls groupTypes currentRatioByClass]. rewrite Hsave.
    match goal with |- context [helper_loop o ss ?st3] => destruct (IH st3)
      as (st' & Hrun & Hfin) end.
    + intros c. destruct (Hinv c) as (D & Hdec & Hcnt & Hgen).
      unfold ratio_inv, set_counts. cbn [calls currentRatioByClass].
      unfold decisions_for at 1. rewrite flat_map_app.
      fold (decisions_for c (calls st)). rewrite Hdec. cbn [flat_map app].
      rewrite !lookup_insert.
      destruct (decide (categoryName s = c)) as [Hc|Hc].
      * exists (D ++ [g]). split; [|split].
        -- rewrite map_app. reflexivity.
        -- simpl. rewrite fold_left_app. subst cur. rewrite Hc, Hcnt. reflexivity.
        -- rewrite length_app. cbn [length]. rewrite Nat.add_1_r.
           apply (gen_loop_snoc ratio (length D) Hv zero_table D g Hgen).
           rewrite <- Hcnt. subst cur. rewrite <- Hc.
           apply dispatchGroup_valid_ok. exact Hv.
      * exists D. rewrite app_nil_r. auto.
    + exists st'. split; [exact Hrun|]. intros c.
      destruct (Hfin c) as (D & HD & Hlen). exists D. split; [exact HD|].
      rewrite Hlen. unfold set_counts. cbn [calls]. unfold decisions_for at 1. rewrite flat_map_app.
      fold (decisions_for c (calls st)). cbn [flat_map app].
      unfold class_count. rewrite filter_cons.
      destruct (decide (categoryName s = c)); simpl;
        rewrite ?length_app; simpl; lia.
Qed.

End RatioFacts.

(** X4: with a ratio and no override, [exportCocoDataset]'s dispatch keeps
    one counts table per class: when every save succeeds, the splits
    chosen for the samples of each class [c], in order, are exactly the
    sequence [genDispatchGroupSequence] yields for the ratio and the
    number of samples of class [c], whatever the other classes do. *)
Theorem exportCocoDataset_ratio_per_class {Annotation : Type}
    (o : HelperOptions Annotation) (ratio : SplitTable) :
  dispatchGroupToCall o = coco_dispatchGroupToCall None (Some ratio) ->
  (0 < train ratio)%Z -> (0 < test ratio)%Z -> (0 <= val ratio)%Z ->
  (forall k s g, saveSample o k s g = None) ->
  forall c,
    decisions_for c (calls (outcome_state (run o)))
    = map Grp (fst (genDispatchGroupSequence ratio
                      (class_count c (generateSampleSequence o)))).
Proof.
  intros Hd Htr Hte Hvl Hsave c.
  pose proof (validate_active_ok ratio Htr Hte Hvl) as Hv.
  destruct (helper_loop_ratio o ratio (generateSampleSequence o) initial_state
              Hd Hv Hsave) as (st' & Hrun & Hfin).
  { intros c'. exists []. repeat split. }
  destruct (Hfin c) as (D & (Hdec & _ & Hgen) & Hlen).
  cbn [initial_state calls decisions_for flat_map length] in Hlen.
  assert (Hfd : decisions_for c (calls (outcome_state (run o))) = map Grp D).
  { unfold run, exportDatasetHelper, bind. rewrite Hrun. unfold finalize.
    destruct (createDirsAndMetadata o) as [f|]; [|exact Hdec].
    destruct (f (groupTypes st')); cbn [outcome_state calls];
      unfold decisions_for; rewrite flat_map_app; fold (decisions_for c (calls st'));
      rewrite Hdec; simpl; apply app_nil_r. }
  rewrite Hfd. unfold genDispatchGroupSequence.
  replace (class_count c (generateSampleSequence o)) with (length D) by lia.
  rewrite Hgen. reflexivity.
Qed.

Definition ratio_options : HelperOptions unit :=
  Build_HelperOptions
    [mkSample 1 "a.jpg" "cat" Ungrouped tt; mkSample 2 "b.jpg" "dog" Ungrouped tt;
     mkSample 3 "c.jpg" "cat" Ungrouped tt]%string
    (coco_dispatchGroupToCall None (Some (mkTable 1 0 1)))
    (fun _ _ _ => None)
    None.

Lemma exportCocoDataset_ratio_per_class_witness :
  decisions_for "cat"%string (calls (outcome_state (run ratio_options)))
  = map Grp (fst (genDispatchGroupSequence (mkTable 1 0 1)
                    (class_count "cat"%string (generateSampleSequence ratio_options)))).
Proof.
  apply (exportCocoDataset_ratio_per_class ratio_options (mkTable 1 0 1));
    simpl; reflexivity || lia.
Defined.

(** X5: with an invalid ratio and no override, the first sample makes the
    dispatcher throw: the run fails with the ratio's error before any sink
    is called, and the only trace left is the zero counts table created
    for the first sample's class by [??=]. *)
Theorem exportCocoDataset_invalid_ratio_fails {Annotation : Type}
    (o : HelperOptions Annotation) (ratio : SplitTable) (e : Error)
    (s : Sample Annotation) (rest : list (Sample Annotation)) :
  dispatchGroupToCall o = coco_dispatchGroupToCall None (Some ratio) ->
  validate ratio (active_groups ratio) = Some e ->
  generateSampleSequence o = s :: rest ->
  run o = Failed e (mkSt {[categoryName s := zero_table]} [] []).
Proof.
  intros Hd Hv Hgen. unfold run, exportDatasetHelper, bind.
  rewrite Hgen, helper_loop_cons. unfold choose_group. rewrite Hd.
  cbn [coco_dispatchGroupToCall initial_state currentRatioByClass].
  unfold dispatchGroup, dispatchGroupR. rewrite Hv.
  rewrite lookup_empty, insert_empty. reflexivity.
Qed.

Definition invalid_ratio_options : HelperOptions unit :=
  Build_HelperOptions
    [mkSample 1 "a.jpg" "cat" Ungrouped tt; mkSample 2 "b.jpg" "dog" Ungrouped tt]%string
    (coco_dispatchGroupToCall None (Some (mkTable 1 2 0)))
    (fun _ _ _ => None)
    (Some (fun _ => None)).

Lemma exportCocoDataset_invalid_ratio_fails_witness :
  run invalid_ratio_options
  = Failed (InvalidTarget Test 0) (mkSt {[ "cat"%string := zero_table ]} [] []).
Proof.
  apply (exportCocoDataset_invalid_ratio_fails invalid_ratio_options (mkTable 1 2 0)
           (InvalidTarget Test 0) (mkSample 1 "a.jpg" "cat" Ungrouped tt)
           [mkSample 2 "b.jpg" "dog" Ungrouped tt]%string); reflexivity.
Defined.

(** X6: with no samples the helper calls no dispatcher and no save: only
    [createDirsAndMetadata], if given, is called once with no groups, so a
    ratio is never validated on an empty dataset. *)
Theorem exportDatasetHelper_empty {Annotation : Type} (o : HelperOptions Annotation) :
  generateSampleSequence o = [] ->
  run o =
  match createDirsAndMetadata o with
  | None => Done tt (mkSt ∅ [] [])
  | Some f =>
      match f [] with
      | None => Done tt (mkSt ∅ [] [FinalizeCall []])
      | Some e => Failed e (mkSt ∅ [] [FinalizeCall []])
      end
  end.
Proof.
  intros Hgen. unfold run, exportDatasetHelper, bind. rewrite Hgen.
  cbn [helper_loop ret]. unfold finalize.
  destruct (createDirsAndMetadata o); reflexivity.
Qed.

Definition empty_invalid_options : HelperOptions unit :=
  Build_HelperOptions []
    (coco_dispatchGroupToCall None (Some (mkTable 0 0 0)))
    (fun _ _ _ => None)
    (Some (fun _ => None)).

Lemma exportDatasetHelper_empty_witness :
  run empty_invalid_options = Done tt (mkSt ∅ [] [FinalizeCall []]).
Proof. apply (exportDatasetHelper_empty empty_invalid_options). reflexivity. Defined.

(* ------------------------------------------------------------------ *)
(** ** [validatePaths] (src/src/export.ts, lines 116-215) *)

(** [export const group_types = ["train", "test", "val"]] (src/unnamed/part_003) *)
Definition group_types : list GroupType := [Train; Test; Val].

(** [string | Partial<Record<GroupType, string>>] *)
Inductive PathOption :=
  | PathString (s : string)
  | PathRecord (train val test : option string).

Definition is_string_path (p : PathOption) : bool :=
  match p with PathString _ => true | PathRecord _ _ _ => false end.

(** [typeof p] *)
Definition typeof_path (p : PathOption) : string :=
  match p with PathString _ => "string" | PathRecord _ _ _ => "object" end.

(** [p[g]]; a string indexed by a group name gives [undefined]. *)
Definition path_at (p : PathOption) (g : GroupType) : option string :=
  match p with
  | PathString _ => None
  | PathRecord tr v te => match g with Train => tr | Val => v | Test => te end
  end.

(** [typeof p[g]] *)
Definition typeof_opt (v : option string) : string :=
  match v with Some _ => "string" | None => "undefined" end.

(** JavaScript truthiness of [string | undefined]. *)
Definition truthy (v : option string) : bool :=
  match v with Some s => negb (String.eqb s "") | None => false end.

(** The messages of the errors [validatePaths] throws. *)
Inductive PathError :=
  | ImportTypeMismatch
      (* `Mismatch between type of importMetadataPaths and importImageDirs` *)
  | ImportGroupTypeMismatch (g : GroupType)
      (* `Mismatch between ${groupType} type of importMetadataPaths and importImageDirs` *)
  | ExportTypeMismatch
      (* `Mismatch between type of exportMetadataPaths and exportImageDirs` *)
  | ExportGroupTypeMismatch (g : GroupType)
      (* `Mismatch of ${groupType} option between exportMetadataPaths and exportImageDirs` *)
  | RatioMissingExport (g : GroupType)
      (* `Group type "${groupType}" has a ratio in groupRatio but is missing ...` *)
  | MirrorMissingExport (g : GroupType)
      (* `Group type "${groupType}" exists in import paths but is missing ...` *).

(** The argument of [validatePaths]; [dispatchGroup?: boolean] is
    [dispatchGroupFlag] ([undefined] read as [false]). *)
Record PathArgs := mkPathArgs {
  importImageDirs : PathOption;
  importMetadataPaths : PathOption;
  exportImageDirs : PathOption;
  exportMetadataPaths : PathOption;
  groupRatio : option SplitTable;
  dispatchGroupFlag : bool
}.

(** [for (const groupType of groupTypes) { ... throw ... }]: the first
    error thrown, if any. *)
Fixpoint first_error {E : Type} (gs : list GroupType) (check : GroupType -> option E)
    : option E :=
  match gs with
  | [] => None
  | g :: rest => match check g with Some e => Some e | None => first_error rest check end
  end.

(** The body of the loops of steps 1 and 2, for a pair (dirs, metadata). *)
Definition consistency_check (type_err : PathError) (group_err : GroupType -> PathError)
    (dirs meta : PathOption) (g : GroupType) : option PathError :=
  if is_string_path dirs || is_string_path meta then
    if negb (String.eqb (typeof_path dirs) (typeof_path meta)) then Some type_err else None
  else if negb (String.eqb (typeof_opt (path_at dirs g)) (typeof_opt (path_at meta g)))
  then Some (group_err g) else None.

(** Step 3, case 1: [groupRatio] given. *)
Definition ratio_check (r : SplitTable) (eid emp : PathOption) (g : GroupType)
    : option PathError :=
  if (0 <? get r g)%Z && (negb (truthy (path_at eid g)) || negb (truthy (path_at emp g)))
  then Some (RatioMissingExport g) else None.

(** Step 3, case 2: export paths must mirror the import groups. *)
Definition mirror_check (iid imp eid emp : PathOption) (g : GroupType) : option PathError :=
  if truthy (path_at iid g) || truthy (path_at imp g) then
    if negb (truthy (path_at eid g)) || negb (truthy (path_at emp g))
    then Some (MirrorMissingExport g) else None
  else None.

Definition coverage_check (a : PathArgs) : option PathError :=
  if negb (dispatchGroupFlag a) && negb (is_string_path (exportImageDirs a))
     && negb (is_string_path (exportMetadataPaths a)) then
    match groupRatio a with
    | Some r => first_error group_types (ratio_check r (exportImageDirs a) (exportMetadataPaths a))
    | None =>
        if negb (is_string_path (importImageDirs a)) && negb (is_string_path (importMetadataPaths a))
        then first_error group_types
               (mirror_check (importImageDirs a) (importMetadataPaths a)
                             (exportImageDirs a) (exportMetadataPaths a))
        else None
    end
  else None.

Definition validatePaths (a : PathArgs) : option PathError :=
  match first_error group_types
          (consistency_check ImportTypeMismatch ImportGroupTypeMismatch
             (importImageDirs a) (importMetadataPaths a)) with
  | Some e => Some e
  | None =>
      match first_error group_types
              (consistency_check ExportTypeMismatch ExportGroupTypeMismatch
                 (exportImageDirs a) (exportMetadataPaths a)) with
      | Some e => Some e
      | None => coverage_check a
      end
  end.

(** The accepted shapes of a (dirs, metadata) pair: two strings, or two
    records defining the same groups. *)
Definition paths_consistent (dirs meta : PathOption) : Prop :=
  (is_string_path dirs = true /\ is_string_path meta = true) \/
  (is_string_path dirs = false /\ is_string_path meta = false /\
   forall g, path_at dirs g = None <-> path_at meta g = None).

Lemma first_error_none {E : Type} (gs : list GroupType) (check : GroupType -> option E) :
  first_error gs check = None <-> forall g, In g gs -> check g = None.
Proof.
  induction gs as [|x rest IH]; simpl.
  - split; [intros _ g []|reflexivity].
  - destruct (check x) eqn:Hx.
    + split; [discriminate|]. intros Hall. rewrite (Hall x (or_introl eq_refl)) in Hx.
      discriminate.
    + rewrite IH. split.
      * intros Hr g [<-|Hg]; [exact Hx|exact (Hr g Hg)].
      * intros Hall g Hg. exact (Hall g (or_intror Hg)).
Qed.

Lemma first_error_some {E : Type} (gs : list GroupType) (check : GroupType -> option E) e :
  first_error gs check = Some e -> exists g, In g gs /\ check g = Some e.
Proof.
  induction gs as [|x rest IH]; simpl; [discriminate|].
  destruct (check x) eqn:Hx.
  - intros [= <-]. exists x. auto.
  - intros Hr. destruct (IH Hr) as (g & Hg & Hc). exists g. auto.
Qed.

Lemma in_group_types g : In g group_types.
Proof. destruct g; simpl; auto. Qed.

Lemma consistency_check_all te ge dirs meta :
  (forall g, consistency_check te ge dirs meta g = None) <-> paths_consistent dirs meta.
Proof.
  unfold consistency_check, paths_consistent.
  destruct dirs as [s|tr v te']; destruct meta as [s'|tr' v' te'']; simpl.
  - split; [auto|reflexivity].
  - split; [intros H; discriminate (H Train)|intros [[_ ?]|[? _]]; discriminate].
  - split; [intros H; discriminate (H Train)|intros [[? _]|(_ & ? & _)]; discriminate].
  - split.
    + intros H. right. split; [reflexivity|split; [reflexivity|]].
      intros g. specialize (H g). destruct g;
        [destruct tr, tr'|destruct v, v'|destruct te', te'']; simpl in *;
        split; congruence.
    + intros [[? _]|(_ & _ & Hg)]; [discriminate|]. intros g. specialize (Hg g).
      destruct g; [destruct tr, tr'|destruct v, v'|destruct te', te'']; simpl in *;
        try reflexivity; exfalso; destruct Hg as [H1 H2];
        first [discriminate (H1 eq_refl)|discriminate (H2 eq_refl)].
Qed.

Lemma first_error_group_types_none {E : Type} (check : GroupType -> option E) :
  first_error group_types check = None <-> forall g, check g = None.
Proof.
  rewrite first_error_none. split; [intros H g; exact (H g (in_group_types g))|auto].
Qed.

(** X7: [validatePaths] accepts its arguments exactly when the import
    pair and the export pair each are two strings or two records defining
    the same groups, and, unless a custom dispatcher is given or an export
    path is a string, every group with a positive ratio (or, without a
    ratio and with record import paths, every group with a non-empty
    import path) has a non-empty export image dir and metadata path. *)
Theorem validatePaths_accepts (a : PathArgs) :
  validatePaths a = None <->
  paths_consistent (importImageDirs a) (importMetadataPaths a) /\
  paths_consistent (exportImageDirs a) (exportMetadataPaths a) /\
  (dispatchGroupFlag a = false ->
   is_string_path (exportImageDirs a) = false ->
   is_string_path (exportMetadataPaths a) = false ->
   match groupRatio a with
   | Some r => forall g, (0 < get r g)%Z ->
       truthy (path_at (exportImageDirs a) g) = true /\
       truthy (path_at (exportMetadataPaths a) g) = true
   | None =>
       is_string_path (importImageDirs a) = false ->
       is_string_path (importMetadataPaths a) = false ->
       forall g, truthy (path_at (importImageDirs a) g) = true \/
                 truthy (path_at (importMetadataPaths a) g) = true ->
       truthy (path_at (exportImageDirs a) g) = true /\
       truthy (path_at (exportMetadataPaths a) g) = true
   end).
Proof.
  unfold validatePaths.
  rewrite <- consistency_check_all with (te := ImportTypeMismatch) (ge := ImportGroupTypeMismatch).
  rewrite <- consistency_check_all with (te := ExportTypeMismatch) (ge := ExportGroupTypeMismatch).
  rewrite <- !first_error_group_types_none.
  destruct (first_error _ (consistency_check ImportTypeMismatch _ _ _)) as [e|];
    [split; [discriminate|intros [[=] _]]|].
  destruct (first_error _ (consistency_check ExportTypeMismatch _ _ _)) as [e|];
    [split; [discriminate|intros (_ & [=] & _)]|].
  assert (Hcov : coverage_check a = None <-> (dispatchGroupFlag a = false ->
   is_string_path (exportImageDirs a) = false ->
   is_string_path (exportMetadataPaths a) = false ->
   match groupRatio a with
   | Some r => forall g, (0 < get r g)%Z ->
       truthy (path_at (exportImageDirs a) g) = true /\
       truthy (path_at (exportMetadataPaths a) g) = true
   | None =>
       is_string_path (importImageDirs a) = false ->
       is_string_path (importMetadataPaths a) = false ->
       forall g, truthy (path_at (importImageDirs a) g) = true \/
                 truthy (path_at (importMetadataPaths a) g) = true ->
       truthy (path_at (exportImageDirs a) g) = true /\
       truthy (path_at (exportMetadataPaths a) g) = true
   end)).
  { unfold coverage_check.
    destruct (dispatchGroupFlag a); [split; [intros _ [=]|reflexivity]|].
    destruct (is_string_path (exportImageDirs a));
      [split; [intros _ _ [=]|reflexivity]|].
    destruct (is_string_path (exportMetadataPaths a));
      [split; [intros _ _ _ [=]|reflexivity]|].
    cbn [negb andb].
    destruct (groupRatio a) as [r|].
    - rewrite first_error_group_types_none. unfold ratio_check. split.
      + intros H _ _ _ g Hpos. specialize (H g).
        destruct (Z.ltb_spec 0 (get r g)); [|lia].
        destruct (truthy (path_at (exportImageDirs a) g)),
                 (truthy (path_at (exportMetadataPaths a) g)); simpl in H;
          auto; discriminate.
      + intros H g. destruct (Z.ltb_spec 0 (get r g)) as [Hpos|]; [|reflexivity].
        destruct (H eq_refl eq_refl eq_refl g Hpos) as [-> ->]. reflexivity.
    - destruct (is_string_path (importImageDirs a));
        [split; [intros _ _ _ _ [=]|reflexivity]|].
      destruct (is_string_path (importMetadataPaths a));
        [split; [intros _ _ _ _ _ [=]|reflexivity]|].
      cbn [negb andb]. rewrite first_error_group_types_none. unfold mirror_check. split.
      + intros H _ _ _ _ _ g Hin. specialize (H g).
        destruct (truthy (path_at (importImageDirs a) g)),
                 (truthy (path_at (importMetadataPaths a) g)); simpl in H;
          [| | |destruct Hin; discriminate];
        destruct (truthy (path_at (exportImageDirs a) g)),
                 (truthy (path_at (exportMetadataPaths a) g)); simpl in H;
          auto; discriminate.
      + intros H g.
        destruct (truthy (path_at (importImageDirs a) g)) eqn:Hi,
                 (truthy (path_at (importMetadataPaths a) g)) eqn:Hm; simpl;
          try reflexivity;
          destruct (H eq_refl eq_refl eq_refl eq_refl eq_refl g) as [-> ->]; auto. }
  rewrite Hcov. tauto.
Qed.

(* ------------------------------------------------------------------ *)
(** ** The COCO sinks of [exportCocoDataset] (src/src/export.ts, lines 548-684) *)

(** An entry of [images] in a COCO file: [{ id, file_name }]. *)
Record CocoImage := mkImage { img_id : Z; file_name : string }.

(** [CocoJsonFormat]; the category records and the annotation records are
    kept abstract. *)
Record CocoJson (Category AnnJson : Type) := mkJson {
  categories : list Category;
  images : list CocoImage;
  annotations : list AnnJson
}.
Arguments mkJson {Category AnnJson} categories images annotations.
Arguments categories {Category AnnJson} c.
Arguments images {Category AnnJson} c.
Arguments annotations {Category AnnJson} c.

(** File-system requests, in the order they are made; [WriteFile] carries
    the object given to [JSON.stringify]. *)
Inductive FsOp (Category AnnJson : Type) :=
  | Mkdir (dir : string)
  | CopyFile (src dst : string)
  | WriteFile (path : string) (contents : option (CocoJson Category AnnJson)).
Arguments Mkdir {Category AnnJson} dir.
Arguments CopyFile {Category AnnJson} src dst.
Arguments WriteFile {Category AnnJson} path contents.

(** [jsonObjects], the module-level [created_dirs] cache of [cachedMkdir]
    (src/src/fs.ts, lines 373-378) and the file-system requests made. *)
Record CocoState (Category AnnJson : Type) := mkCocoState {
  jsonObjects : gmap string (CocoJson Category AnnJson);
  created_dirs : gset string;
  fs_log : list (FsOp Category AnnJson)
}.
Arguments mkCocoState {Category AnnJson} jsonObjects created_dirs fs_log.
Arguments jsonObjects {Category AnnJson} c.
Arguments created_dirs {Category AnnJson} c.
Arguments fs_log {Category AnnJson} c.

Inductive CocoError :=
  | InvalidImageDir (sample_group : Group)
      (* `Invalid import or export image directory for group type "${sample.groupType}"` *)
  | InvalidMetadataPath (g : Group)
      (* same message, thrown by [createDirsAndMetadata] for its [groupType] *).

Inductive CocoResult (Category AnnJson : Type) :=
  | CocoDone (st : CocoState Category AnnJson)
  | CocoThrow (e : CocoError) (st : CocoState Category AnnJson).
Arguments CocoDone {Category AnnJson} st.
Arguments CocoThrow {Category AnnJson} e st.

Definition coco_state {Category AnnJson : Type} (r : CocoResult Category AnnJson) :=
  match r with CocoDone st => st | CocoThrow _ st => st end.

(** The value of a [GroupType | ""] as a key of [jsonObjects]. *)
Definition key_of (g : Group) : string :=
  match g with
  | Grp Train => "train" | Grp Val => "val" | Grp Test => "test" | Ungrouped => ""
  end.

(** [key && isGroupKey(key)] (src/unnamed/part_003), with the group named. *)
Definition group_key (k : string) : option GroupType :=
  if String.eqb k "train" then Some Train
  else if String.eqb k "test" then Some Test
  else if String.eqb k "val" then Some Val
  else None.

Section CocoSinks.
Context {Annotation Category AnnJson : Type}.
(** [path.join] *)
Context (join : string -> string -> string).
(** [Array.from(categories, ...)] *)
Context (categories_json : list Category).
(** The annotation record pushed for a sample, which depends on [task]. *)
Context (annotation_json : Sample Annotation -> AnnJson).


(** [typeof exportImageDirs === "string" ? "" : args.groupType] *)
Definition save_key (exportImageDirs : PathOption) (g : Group) : string :=
  if is_string_path exportImageDirs then "" else key_of g.

(** [importImageDir] *)
Definition resolve_import_dir (importImageDirs : PathOption) (sample : Sample Annotation)
    : option string :=
  match importImageDirs with
  | PathString s => Some s
  | PathRecord _ _ _ =>
      match group_key (key_of (groupType sample)) with
      | Some h => path_at importImageDirs h
      | None => None
      end
  end.

(** [exportImageDir] *)
Definition resolve_export_dir (exportImageDirs : PathOption) (key : string) : option string :=
  match exportImageDirs with
  | PathString s => Some s
  | PathRecord _ _ _ =>
      match group_key key with Some h => path_at exportImageDirs h | None => None end
  end.

(** [cachedMkdir] (src/src/fs.ts, lines 374-378) *)
Definition cachedMkdir (dir : string) (st : CocoState Category AnnJson) : CocoState Category AnnJson :=
  if decide (dir ∈ created_dirs st) then st
  else mkCocoState (jsonObjects st) ({[dir]} ∪ created_dirs st) (fs_log st ++ [Mkdir dir]).

(** [jsonObjects[groupType] = { categories: ..., images: [], annotations: [] }] *)
Definition empty_json : CocoJson Category AnnJson := mkJson categories_json [] [].

(** The two [push]es of [saveSample]. *)
Definition push_sample (sample : Sample Annotation) (j : CocoJson Category AnnJson)
    : CocoJson Category AnnJson :=
  let imgs :=
    if existsb (fun img => Z.eqb (img_id img) (imageId sample)) (images j) then images j
    else images j ++ [mkImage (imageId sample) (filename sample)] in
  mkJson (categories j) imgs (annotations j ++ [annotation_json sample]).

(** [saveSample] *)
Definition coco_saveSample (importImageDirs exportImageDirs : PathOption)
    (sample : Sample Annotation) (g : Group) (st : CocoState Category AnnJson) : CocoResult Category AnnJson :=
  let key := save_key exportImageDirs g in
  let importImageDir := resolve_import_dir importImageDirs sample in
  let exportImageDir := resolve_export_dir exportImageDirs key in
  if negb (truthy importImageDir) || negb (truthy exportImageDir) then
    CocoThrow (InvalidImageDir (groupType sample)) st
  else
    let idir := default "" importImageDir in
    let edir := default "" exportImageDir in
    let st1 := cachedMkdir edir st in
    let st2 := mkCocoState (jsonObjects st1) (created_dirs st1)
                 (fs_log st1 ++ [CopyFile (join idir (filename sample))
                                          (join edir (filename sample))]) in
    let j := default empty_json (jsonObjects st2 !! key) in
    CocoDone (mkCocoState (<[key := push_sample sample j]> (jsonObjects st2))
                          (created_dirs st2) (fs_log st2)).




(** A sequence of [saveSample] calls, stopping at the first that throws. *)
Fixpoint coco_replay (importImageDirs exportImageDirs : PathOption)
    (saves : list (Sample Annotation * Group)) (st : CocoState Category AnnJson) : CocoResult Category AnnJson :=
  match saves with
  | [] => CocoDone st
  | (s, g) :: rest =>
      match coco_saveSample importImageDirs exportImageDirs s g st with
      | CocoDone st' => coco_replay importImageDirs exportImageDirs rest st'
      | CocoThrow e st' => CocoThrow e st'
      end
  end.

End CocoSinks.

(** X8: the import pair is checked first: when it is neither two strings
    nor two records defining the same groups, [validatePaths] reports an
    import error, whatever the export paths and the ratio are: the type
    mismatch when exactly one of the two is a string, otherwise a group
    where one record has a path and the other has none. *)
Theorem validatePaths_import_checked_first (a : PathArgs) :
  ~ paths_consistent (importImageDirs a) (importMetadataPaths a) ->
  (validatePaths a = Some ImportTypeMismatch /\
   is_string_path (importImageDirs a) <> is_string_path (importMetadataPaths a)) \/
  (exists g, validatePaths a = Some (ImportGroupTypeMismatch g) /\
   is_string_path (importImageDirs a) = false /\
   is_string_path (importMetadataPaths a) = false /\
   typeof_opt (path_at (importImageDirs a) g) <> typeof_opt (path_at (importMetadataPaths a) g)).
Proof.
  intros Hnc. unfold validatePaths.
  destruct (first_error group_types
              (consistency_check ImportTypeMismatch ImportGroupTypeMismatch
                 (importImageDirs a) (importMetadataPaths a))) as [e|] eqn:He.
  2:{ exfalso. apply Hnc. apply (consistency_check_all ImportTypeMismatch ImportGroupTypeMismatch).
      apply first_error_group_types_none. exact He. }
  destruct (first_error_some _ _ _ He) as (g & _ & Hg). clear He Hnc.
  destruct a as [iid imp eid emp r fl]. cbn [importImageDirs importMetadataPaths] in *.
  unfold consistency_check in Hg.
  destruct iid as [s|tr v te], imp as [s'|tr' v' te']; simpl in Hg.
  - discriminate.
  - injection Hg as <-. left. split; [reflexivity|discriminate].
  - injection Hg as <-. left. split; [reflexivity|discriminate].
  - right. exists g.
    destruct (String.eqb (typeof_opt _) (typeof_opt _)) eqn:Ht; simpl in Hg; [discriminate|].
    injection Hg as <-. split; [reflexivity|]. split; [reflexivity|]. split; [reflexivity|].
    simpl. intros Heq. rewrite Heq, String.eqb_refl in Ht. discriminate.
Qed.

Definition mixed_import_args : PathArgs :=
  mkPathArgs (PathString "images") (PathRecord (Some "train.json") None None)
    (PathRecord (Some "out/train") None None) (PathRecord None None None)
    None false.

Lemma validatePaths_import_checked_first_witness :
  ~ paths_consistent (importImageDirs mixed_import_args) (importMetadataPaths mixed_import_args) /\
  ((validatePaths mixed_import_args = Some ImportTypeMismatch /\
    is_string_path (importImageDirs mixed_import_args)
    <> is_string_path (importMetadataPaths mixed_import_args)) \/
   (exists g, validatePaths mixed_import_args = Some (ImportGroupTypeMismatch g) /\
    is_string_path (importImageDirs mixed_import_args) = false /\
    is_string_path (importMetadataPaths mixed_import_args) = false /\
    typeof_opt (path_at (importImageDirs mixed_import_args) g)
    <> typeof_opt (path_at (importMetadataPaths mixed_import_args) g))).
Proof.
  assert (Hnc : ~ paths_consistent (importImageDirs mixed_import_args)
                                   (importMetadataPaths mixed_import_args)).
  { unfold paths_consistent. simpl. intros [[_ H]|[H _]]; discriminate. }
  split; [exact Hnc|]. apply (validatePaths_import_checked_first mixed_import_args). exact Hnc.
Defined.

(** Directories the log shows created. *)
Definition mkdir_dirs {Category AnnJson : Type} (log : list (FsOp Category AnnJson))
    : list string :=
  flat_map (fun op => match op with Mkdir d => [d] | _ => [] end) log.

Section CocoFacts.
Context {Annotation Category AnnJson : Type}.
Context (join : string -> string -> string).
Context (categories_json : list Category).
Context (annotation_json : Sample Annotation -> AnnJson).

Definition images_unique (st : CocoState Category AnnJson) : Prop :=
  forall k j, jsonObjects st !! k = Some j -> NoDup (map img_id (images j)).

Definition mkdir_cache_ok (st : CocoState Category AnnJson) : Prop :=
  NoDup (mkdir_dirs (fs_log st)) /\
  forall d, In d (mkdir_dirs (fs_log st)) -> d ∈ created_dirs st.

Lemma cachedMkdir_json d (st : CocoState Category AnnJson) :
  jsonObjects (cachedMkdir d st) = jsonObjects st.
Proof. unfold cachedMkdir. destruct (decide _); reflexivity. Qed.

(** The effect of a [saveSample] call that does not throw. *)
Lemma coco_saveSample_done I E (s : Sample Annotation) g st st' :
  coco_saveSample join categories_json annotation_json I E s g st = CocoDone st' ->
  jsonObjects st' =
    <[save_key E g := push_sample annotation_json s
         (default (empty_json categories_json) (jsonObjects st !! save_key E g))]>
      (jsonObjects st) /\
  exists idir edir,
    resolve_import_dir I s = Some idir /\ resolve_export_dir E (save_key E g) = Some edir /\
    created_dirs st' = created_dirs (cachedMkdir edir st) /\
    fs_log st' = fs_log (cachedMkdir edir st) ++
                 [CopyFile (join idir (filename s)) (join edir (filename s))].
Proof.
  unfold coco_saveSample.
  destruct (resolve_import_dir I s) as [idir|] eqn:Hi; [|discriminate].
  destruct (resolve_export_dir E (save_key E g)) as [edir|] eqn:He;
    [|simpl; rewrite orb_true_r; discriminate].
  destruct (negb (truthy (Some idir)) || negb (truthy (Some edir))); [discriminate|].
  intros [= <-]. cbn [jsonObjects created_dirs fs_log default].
  rewrite !cachedMkdir_json. split; [reflexivity|]. exists idir, edir. auto.
Qed.

Lemma coco_saveSample_throw I E (s : Sample Annotation) g st e st' :
  coco_saveSample join categories_json annotation_json I E s g st = CocoThrow e st' ->
  e = InvalidImageDir (groupType s) /\ st' = st.
Proof.
  unfold coco_saveSample. destruct (_ || _); [intros [= <- <-]; auto|discriminate].
Qed.


(** X10: with per-group import image dirs, a sample without a group
    ([groupType: ""]) is always refused by [saveSample], whatever group
    it is exported to and even when the export dir is a string. *)
Theorem coco_saveSample_ungrouped_refused I E (s : Sample Annotation) g st :
  is_string_path I = false -> groupType s = Ungrouped ->
  coco_saveSample join categories_json annotation_json I E s g st
  = CocoThrow (InvalidImageDir Ungrouped) st.
Proof.
  intros HI Hs. destruct I as [p|tr v te]; [discriminate|].
  unfold coco_saveSample, resolve_import_dir. rewrite Hs. reflexivity.
Qed.

Lemma coco_saveSample_other_keys I E (s : Sample Annotation) g st k :
  k <> save_key E g ->
  jsonObjects (coco_state (coco_saveSample join categories_json annotation_json I E s g st))
    !! k = jsonObjects st !! k.
Proof.
  intros Hk.
  destruct (coco_saveSample _ _ _ I E s g st) eqn:Hs; cbn [coco_state].
  - destruct (coco_saveSample_done I E s g st st0 Hs) as [-> _].
    apply lookup_insert_ne. congruence.
  - destruct (coco_saveSample_throw I E s g st e st0 Hs) as [_ ->]. reflexivity.
Qed.

Lemma coco_replay_cons I E (s : Sample Annotation) g rest st :
  coco_replay join categories_json annotation_json I E ((s, g) :: rest) st =
  match coco_saveSample join categories_json annotation_json I E s g st with
  | CocoDone st' => coco_replay join categories_json annotation_json I E rest st'
  | CocoThrow e st' => CocoThrow e st'
  end.
Proof. reflexivity. Qed.

(** X11: when [exportImageDirs] is a string, saving only ever touches
    [jsonObjects[""]]: after any sequence of saves, whether or not one
    throws, every other key holds what it held before. *)
Theorem coco_replay_string_export_single_key I E saves st :
  is_string_path E = true ->
  forall k, k <> ""%string ->
  jsonObjects (coco_state (coco_replay join categories_json annotation_json I E saves st))
    !! k = jsonObjects st !! k.
Proof.
  intros HE k Hk. revert st. induction saves as [|[s g] rest IH]; intros st; [reflexivity|].
  rewrite coco_replay_cons.
  assert (Hkey : k <> save_key E g) by (unfold save_key; rewrite HE; exact Hk).
  pose proof (coco_saveSample_other_keys I E s g st k Hkey) as Ho.
  destruct (coco_saveSample _ _ _ I E s g st) eqn:Hs; cbn [coco_state] in *.
  - rewrite IH. exact Ho.
  - exact Ho.
Qed.

Lemma push_sample_images_unique (s : Sample Annotation) (j : CocoJson Category AnnJson) :
  NoDup (map img_id (images j)) ->
  NoDup (map img_id (images (push_sample annotation_json s j))).
Proof.
  intros Hj. unfold push_sample. cbn [images].
  destruct (existsb _ (images j)) eqn:Hex; [exact Hj|].
  rewrite map_app. cbn [map img_id]. apply NoDup_app. split; [exact Hj|]. split.
  - intros x Hx Hy. apply list_elem_of_singleton in Hy. subst x.
    apply list_elem_of_In, in_map_iff in Hx. destruct Hx as (img & Himg & Hin).
    assert (Ht : existsb (fun img => Z.eqb (img_id img) (imageId s)) (images j) = true).
    { apply existsb_exists. exists img. split; [exact Hin|]. apply Z.eqb_eq. exact Himg. }
    congruence.
  - apply NoDup_singleton.
Qed.

Lemma coco_saveSample_images_unique I E (s : Sample Annotation) g st :
  images_unique st ->
  images_unique (coco_state (coco_saveSample join categories_json annotation_json I E s g st)).
Proof.
  intros Hu. destruct (coco_saveSample _ _ _ I E s g st) eqn:Hs; cbn [coco_state].
  - destruct (coco_saveSample_done I E s g st st0 Hs) as [Hj _].
    intros k j. rewrite Hj. destruct (decide (k = save_key E g)) as [->|Hne].
    + rewrite lookup_insert_eq. intros [= <-]. apply push_sample_images_unique.
      destruct (jsonObjects st !! save_key E g) as [j0|] eqn:Hj0; cbn [default].
      * exact (Hu _ _ Hj0).
      * constructor.
    + rewrite lookup_insert_ne by congruence. apply Hu.
  - destruct (coco_saveSample_throw I E s g st e st0 Hs) as [_ ->]. exact Hu.
Qed.

(** X12: [saveSample] never lists an image twice in a COCO file: if no
    file of [jsonObjects] holds two images with the same id, none does
    after any sequence of saves, whether or not one throws. *)
Theorem coco_replay_images_unique I E saves st :
  images_unique st ->
  images_unique (coco_state (coco_replay join categories_json annotation_json I E saves st)).
Proof.
  revert st. induction saves as [|[s g] rest IH]; intros st Hu; [exact Hu|].
  rewrite coco_replay_cons.
  pose proof (coco_saveSample_images_unique I E s g st Hu) as Hu'.
  destruct (coco_saveSample _ _ _ I E s g st); cbn [coco_state] in *; auto.
Qed.

Lemma replay_annotations I E saves st st' :
  coco_replay join categories_json annotation_json I E saves st = CocoDone st' ->
  forall k,
    annotations (default (empty_json categories_json) (jsonObjects st' !! k)) =
    annotations (default (empty_json categories_json) (jsonObjects st !! k)) ++
    map (fun sg => annotation_json (fst sg))
        (filter (fun sg => save_key E (snd sg) = k) saves).
Proof.
  revert st. induction saves as [|[s g] rest IH]; intros st Hrun k.
  - injection Hrun as <-. simpl. rewrite app_nil_r. reflexivity.
  - rewrite coco_replay_cons in Hrun.
    destruct (coco_saveSample _ _ _ I E s g st) as [st1|e st1] eqn:Hs; [|discriminate].
    rewrite (IH st1 Hrun k). rewrite filter_cons. cbn [snd fst].
    destruct (coco_saveSample_done I E s g st st1 Hs) as [Hj _]. rewrite Hj.
    destruct (decide (save_key E g = k)) as [<-|Hne].
    + rewrite lookup_insert_eq. cbn [default map]. unfold push_sample at 1.
      simpl. rewrite <- app_assoc. reflexivity.
    + rewrite lookup_insert_ne by exact Hne. reflexivity.
Qed.

(** X13: every save that succeeds appends exactly one annotation to the
    file of its key: after a sequence of successful saves, the annotations
    of each key are the ones it had before followed by those of the
    samples saved under that key, in order. *)
Theorem coco_replay_annotations I E saves st st' :
  coco_replay join categories_json annotation_json I E saves st = CocoDone st' ->
  forall k,
    annotations (default (empty_json categories_json) (jsonObjects st' !! k)) =
    annotations (default (empty_json categories_json) (jsonObjects st !! k)) ++
    map (fun sg => annotation_json (fst sg))
        (filter (fun sg => save_key E (snd sg) = k) saves).
Proof. apply replay_annotations. Qed.

Lemma cachedMkdir_cache_ok d (st : CocoState Category AnnJson) :
  mkdir_cache_ok st -> mkdir_cache_ok (cachedMkdir d st).
Proof.
  unfold cachedMkdir, mkdir_cache_ok. destruct (decide (d ∈ created_dirs st)) as [|Hn];
    [auto|].
  intros [Hnd Hin]. cbn [fs_log created_dirs]. unfold mkdir_dirs in *.
  rewrite flat_map_app. cbn [flat_map app]. split.
  - apply NoDup_app. split; [exact Hnd|]. split; [|apply NoDup_singleton].
    intros x Hx Hy. apply list_elem_of_singleton in Hy. subst x.
    apply Hn, Hin, list_elem_of_In, Hx.
  - intros x Hx. apply in_app_or in Hx. apply elem_of_union. destruct Hx as [Hx|[<-|[]]].
    + right. exact (Hin x Hx).
    + left. apply elem_of_singleton. reflexivity.
Qed.

(** X14: through [cachedMkdir], a sequence of saves asks for each export
    directory to be created at most once, provided the [created_dirs]
    cache records every directory created before. *)
Theorem coco_replay_mkdir_once I E saves st :
  mkdir_cache_ok st ->
  mkdir_cache_ok (coco_state (coco_replay join categories_json annotation_json I E saves st)).
Proof.
  revert st. induction saves as [|[s g] rest IH]; intros st Hok; [exact Hok|].
  rewrite coco_replay_cons.
  destruct (coco_saveSample _ _ _ I E s g st) as [st1|e st1] eqn:Hs; cbn [coco_state].
  - apply IH.
    destruct (coco_saveSample_done I E s g st st1 Hs) as (_ & idir & edir & _ & _ & Hd & Hl).
    pose proof (cachedMkdir_cache_ok edir st Hok) as [Hnd Hin].
    unfold mkdir_cache_ok. rewrite Hd, Hl. unfold mkdir_dirs in *.
    rewrite flat_map_app. cbn [flat_map app]. rewrite app_nil_r. auto.
  - destruct (coco_saveSample_throw I E s g st e st1 Hs) as [_ ->]. exact Hok.
Qed.

End CocoFacts.

Section CocoMetadataFacts.
Context {Annotation Category AnnJson : Type}.
Context (join : string -> string -> string).
Context (categories_json : list Category).
Context (annotation_json : Sample Annotation -> AnnJson).










End CocoMetadataFacts.

(** Concrete instances of the COCO sinks. *)
Definition demo_join (d f : string) : string := (d ++ "/" ++ f)%string.
Definition demo_categories : list unit := [].
Definition demo_annotation (s : Sample unit) : Z := imageId s.
Definition demo_sample (i : Z) (fn : string) (g : Group) : Sample unit :=
  mkSample i fn "cat" g tt.
Definition coco_fresh : CocoState unit Z := mkCocoState ∅ ∅ [].

Definition demo_saves : list (Sample unit * Group) :=
  [(demo_sample 1 "a.jpg" (Grp Train), Grp Train);
   (demo_sample 1 "a.jpg" (Grp Train), Grp Train);
   (demo_sample 2 "b.jpg" (Grp Val), Grp Test)]%string.

Definition demo_import_dirs : PathOption :=
  PathRecord (Some "in/train") (Some "in/val") None.
Definition demo_export_dirs : PathOption :=
  PathRecord (Some "out/train") None (Some "out/test").

Definition demo_run : CocoResult unit Z :=
  coco_replay demo_join demo_categories demo_annotation
    demo_import_dirs demo_export_dirs demo_saves coco_fresh.


Lemma coco_saveSample_ungrouped_refused_witness :
  coco_saveSample demo_join demo_categories demo_annotation
    demo_import_dirs (PathString "out") (demo_sample 3 "c.jpg" Ungrouped) (Grp Train)
    coco_fresh
  = CocoThrow (InvalidImageDir Ungrouped) coco_fresh.
Proof. apply coco_saveSample_ungrouped_refused; reflexivity. Defined.

Lemma coco_replay_string_export_single_key_witness :
  jsonObjects (coco_state (coco_replay demo_join demo_categories demo_annotation
                 (PathString "in") (PathString "out") demo_saves coco_fresh)) !! "train"%string
  = jsonObjects coco_fresh !! "train"%string.
Proof.
  apply coco_replay_string_export_single_key; [reflexivity|discriminate].
Defined.

Lemma coco_replay_images_unique_witness :
  images_unique coco_fresh /\ images_unique (coco_state demo_run).
Proof.
  assert (H0 : images_unique coco_fresh).
  { intros k j. unfold coco_fresh. cbn [jsonObjects]. rewrite lookup_empty. discriminate. }
  split; [exact H0|]. apply coco_replay_images_unique. exact H0.
Defined.

Lemma coco_replay_annotations_witness :
  demo_run = CocoDone (coco_state demo_run) /\
  annotations (default (empty_json demo_categories)
                 (jsonObjects (coco_state demo_run) !! "train"%string))
  = annotations (default (empty_json demo_categories) (jsonObjects coco_fresh !! "train"%string))
    ++ map (fun sg => demo_annotation (fst sg))
         (filter (fun sg => save_key demo_export_dirs (snd sg) = "train"%string) demo_saves).
Proof.
  assert (H : demo_run = CocoDone (coco_state demo_run)) by (vm_compute; reflexivity).
  split; [exact H|]. exact (coco_replay_annotations demo_join demo_categories demo_annotation
    demo_import_dirs demo_export_dirs demo_saves coco_fresh (coco_state demo_run) H
    "train"%string).
Defined.

Lemma coco_replay_mkdir_once_witness :
  mkdir_cache_ok coco_fresh /\ mkdir_cache_ok (coco_state demo_run).
Proof.
  assert (H0 : mkdir_cache_ok coco_fresh) by (split; [constructor|intros d []]).
  split; [exact H0|]. apply coco_replay_mkdir_once. exact H0.
Defined.







(* ------------------------------------------------------------------ *)
(** ** [generateSampleSequence] of [exportCocoDataset] (src/src/export.ts,
    lines 507-546) and the annotation records pushed by [saveSample]
    (lines 601-644) *)

Inductive Task := Classify | Detect | Pose.



(** [ImageWithBox<Annotation>]; [annotations] can be missing at run time,
    which the code checks. *)
Record ImageWithBox (Ann : Type) := mkImageWithBox {
  box_filename : string;
  box_annotations : option (list Ann)
}.
Arguments mkImageWithBox {Ann} box_filename box_annotations.
Arguments box_filename {Ann} _.
Arguments box_annotations {Ann} _.

Inductive Visibility := Unannotated | NotVisible | Visible.

(** [Keypoint]; coordinates are JavaScript numbers of type [Num]. *)
Record Keypoint (Num : Type) := mkKeypoint { kp_x : Num; kp_y : Num; visibility : Visibility }.
Arguments mkKeypoint {Num} kp_x kp_y visibility.
Arguments kp_x {Num} _.
Arguments kp_y {Num} _.
Arguments visibility {Num} _.

(** [BoxAnnotation], with the [keypoints] of a [KeypointsAnnotation]. *)
Record BoxAnnotation (Num : Type) := mkBoxAnnotation {
  ann_id : Z;
  ann_groupType : Group;
  ann_categoryId : Z;
  ann_x : Num; ann_y : Num; ann_width : Num; ann_height : Num;
  ann_keypoints : option (list (Keypoint Num))
}.
Arguments mkBoxAnnotation {Num} ann_id ann_groupType ann_categoryId ann_x ann_y ann_width
  ann_height ann_keypoints.
Arguments ann_id {Num} _.
Arguments ann_groupType {Num} _.
Arguments ann_categoryId {Num} _.
Arguments ann_x {Num} _.
Arguments ann_y {Num} _.
Arguments ann_width {Num} _.
Arguments ann_height {Num} _.
Arguments ann_keypoints {Num} _.

(** The entries of [annotations] in a COCO file; [None] is [undefined]. *)
Record CocoAnnotation (Num : Type) := mkCocoAnnotation {
  coco_id : option Z;
  image_id : Z;
  category_id : option Z;
  bbox : option (list Num);
  keypoints : option (list Num)
}.
Arguments mkCocoAnnotation {Num} coco_id image_id category_id bbox keypoints.
Arguments coco_id {Num} _.
Arguments image_id {Num} _.
Arguments category_id {Num} _.
Arguments bbox {Num} _.
Arguments keypoints {Num} _.

(** [throw new Error(`Image annotations are missing for ${image.filename}
    with ID ${imageId} (task: "${task}")`)] *)
Inductive GenError := MissingAnnotations (filename : string) (imageId : Z) (task : Task).

(** [categories.get(categoryId)?.categoryName ?? `${categoryId}`] *)
Definition category_name (categories : gmap Z string) (categoryId : Z) : string :=
  default (pretty categoryId) (categories !! categoryId).


(** The other branch: the samples yielded, and the error thrown if an
    image has no [annotations] (the samples before it are yielded first). *)
Fixpoint box_samples {Num : Type} (task : Task) (categories : gmap Z string)
    (images : list (Z * ImageWithBox (BoxAnnotation Num)))
    : list (Sample (BoxAnnotation Num)) * option GenError :=
  match images with
  | [] => ([], None)
  | (imageId, image) :: rest =>
      match box_annotations image with
      | Some anns =>
          let here := map (fun annotation =>
                             mkSample imageId (box_filename image)
                               (category_name categories (ann_categoryId annotation))
                               (ann_groupType annotation) annotation) anns in
          let '(more, err) := box_samples task categories rest in
          (here ++ more, err)
      | None => ([], Some (MissingAnnotations (box_filename image) imageId task))
      end
  end.


Section BoxJson.
Context {Num : Type}.
(** The number literals [0], [1], [2]. *)
Context (num_of_Z : Z -> Num).

(** [k.visibility === "unannotated" ? 0 : k.visibility === "not_visible" ? 1 : 2] *)
Definition visibility_code (v : Visibility) : Num :=
  num_of_Z (match v with Unannotated => 0 | NotVisible => 1 | Visible => 2 end)%Z.

(** [keypoints.map((k) => [k.x, k.y, code]).flat()] *)
Definition flatten_keypoints (kps : list (Keypoint Num)) : list Num :=
  flat_map (fun k => [kp_x k; kp_y k; visibility_code (visibility k)]) kps.

(** The annotation pushed for a [detect] or [pose] sample. *)
Definition box_annotation_json (sample : Sample (BoxAnnotation Num)) : CocoAnnotation Num :=
  let a := annotation sample in
  let bbox := [ann_x a; ann_y a; ann_width a; ann_height a] in
  match ann_keypoints a with
  | None => mkCocoAnnotation (Some (ann_id a)) (imageId sample) (Some (ann_categoryId a))
              (Some bbox) None
  | Some kps => mkCocoAnnotation (Some (ann_id a)) (imageId sample) (Some (ann_categoryId a))
              (Some bbox) (Some (flatten_keypoints kps))
  end.

End BoxJson.

(** Reading a flat list back in triples. *)
Fixpoint chunk3 {A : Type} (l : list A) : list (A * A * A) :=
  match l with
  | x :: y :: z :: rest => (x, y, z) :: chunk3 rest
  | _ => []
  end.

Lemma box_samples_app {Num : Type} task categories
    (pre post : list (Z * ImageWithBox (BoxAnnotation Num))) :
  snd (box_samples task categories pre) = None ->
  box_samples task categories (pre ++ post) =
  (fst (box_samples task categories pre) ++ fst (box_samples task categories post),
   snd (box_samples task categories post)).
Proof.
  induction pre as [|[i img] rest IH].
  { intros _. cbn [app box_samples fst snd]. destruct (box_samples task categories post).
    reflexivity. }
  cbn [app box_samples]. destruct (box_annotations img) as [anns|]; [|discriminate].
  destruct (box_samples task categories rest) as [more err] eqn:Hr.
  cbn [fst snd]. intros Herr.
  rewrite IH by (rewrite ?Hr; exact Herr). rewrite ?Hr. cbn [fst snd].
  destruct (box_samples task categories post). cbn [fst snd]. rewrite app_assoc. reflexivity.
Qed.

Lemma box_samples_all_annotated {Num : Type} task categories
    (pre : list (Z * ImageWithBox (BoxAnnotation Num))) :
  (forall i img, In (i, img) pre -> is_Some (box_annotations img)) ->
  snd (box_samples task categories pre) = None.
Proof.
  induction pre as [|[i img] rest IH]; intros Hall; [reflexivity|].
  cbn [box_samples]. destruct (Hall i img (or_introl eq_refl)) as [anns ->].
  destruct (box_samples task categories rest) as [more err] eqn:Hr. cbn [snd].
  apply IH.
  intros i' img' Hin. exact (Hall i' img' (or_intror Hin)).
Qed.

(** X18: for [detect] and [pose] datasets, [generateSampleSequence]
    throws at the first image without [annotations], having yielded one
    sample per annotation of every image before it and none of the images
    after it. *)
Theorem generateSampleSequence_missing_annotations {Num : Type} task categories
    (pre : list (Z * ImageWithBox (BoxAnnotation Num))) imageId image post :
  (forall i img, In (i, img) pre -> is_Some (box_annotations img)) ->
  box_annotations image = None ->
  box_samples task categories (pre ++ (imageId, image) :: post) =
  (fst (box_samples task categories pre),
   Some (MissingAnnotations (box_filename image) imageId task)).
Proof.
  intros Hpre Himg.
  rewrite (box_samples_app task categories pre) by (apply box_samples_all_annotated; exact Hpre).
  cbn [box_samples]. rewrite Himg. cbn [fst snd]. rewrite app_nil_r. reflexivity.
Qed.

Definition demo_box (i : Z) : BoxAnnotation Z :=
  mkBoxAnnotation i (Grp Train) 1 0%Z 0%Z 10%Z 10%Z None.

Definition demo_box_images : list (Z * ImageWithBox (BoxAnnotation Z)) :=
  [(7%Z, mkImageWithBox "a.jpg"%string (Some [demo_box 1; demo_box 2]))].

Lemma generateSampleSequence_missing_annotations_witness :
  (forall i img, In (i, img) demo_box_images -> is_Some (box_annotations img)) /\
  box_annotations (mkImageWithBox (Ann := BoxAnnotation Z) "b.jpg"%string None) = None /\
  box_samples Detect ∅
    (demo_box_images ++ (8%Z, mkImageWithBox "b.jpg"%string None) ::
     [(9%Z, mkImageWithBox "c.jpg"%string (Some [demo_box 3]))])
  = (fst (box_samples Detect ∅ demo_box_images),
     Some (MissingAnnotations "b.jpg"%string 8 Detect)).
Proof.
  assert (Hpre : forall i img, In (i, img) demo_box_images -> is_Some (box_annotations img)).
  { intros i img [[= <- <-]|[]]. eexists; reflexivity. }
  split; [exact Hpre|]. split; [reflexivity|].
  apply (generateSampleSequence_missing_annotations Detect ∅ _ 8%Z
           (mkImageWithBox "b.jpg"%string None) _ Hpre). reflexivity.
Defined.

Section ClassifyFacts.
Context {Num : Type}.
Context (join : string -> string -> string).
Context {Category : Type} (categories_json : list Category).




End ClassifyFacts.



(** X20: the flat [keypoints] array of a [pose] annotation has three
    numbers per keypoint and reads back, in triples, as the keypoints'
    [x], [y] and visibility code, in order. *)
Theorem flatten_keypoints_round_trip {Num : Type} (num_of_Z : Z -> Num)
    (kps : list (Keypoint Num)) :
  length (flatten_keypoints num_of_Z kps) = (3 * length kps)%nat /\
  chunk3 (flatten_keypoints num_of_Z kps) =
  map (fun k => (kp_x k, kp_y k, visibility_code num_of_Z (visibility k))) kps.
Proof.
  induction kps as [|k rest [IHl IHc]]; [split; reflexivity|].
  unfold flatten_keypoints in *. cbn [flat_map app length chunk3 map].
  split; [rewrite IHl; lia|rewrite IHc; reflexivity].
Qed.

